(** * notifycond: the notification dispatcher of johto/pq

    A shallow embedding of [src/notifycond/notifycond.go].  The dispatcher
    object [NotifyCond], the Go channels it owns and the goroutines that
    touch it are modelled as an explicit transition system:

    - a Go channel is a record (capacity, buffered values, closed flag); a
      nil channel is [None];
    - [sync.Mutex] is a boolean, [sync.WaitGroup] a counter;
    - a [time.Timer] is an armed flag and a one-slot channel, and the
      expiry of an armed timer is a step of the runtime;
    - every API call is a goroutine whose program counter stops at the
      places where the Go code can block or be interleaved (taking the
      mutex, a channel operation, a call into the listener);
    - the code between two such places is written in a small state monad
      with panics and blocking. *)

From stdpp Require Import gmap strings list fin_maps.
From Stdlib Require Import ZArith.

Open Scope Z_scope.
Open Scope nat_scope.

(** ** Go channels *)

Module Chan.

Record t (A : Type) : Type := mk {
  cap : nat;          (* capacity given to make *)
  buf : list A;       (* buffered values, oldest first *)
  closed : bool       (* close has been called *)
}.
Arguments mk {A} _ _ _.
Arguments cap {A} _.
Arguments buf {A} _.
Arguments closed {A} _.

(** [make(chan A, n)] *)
Definition make {A} (n : nat) : t A := mk n [] false.

Inductive send_result (A : Type) : Type :=
| Sent (c : t A)      (* the value went into the buffer *)
| SendBlocks          (* no room: a plain send waits, a select takes another case *)
| SendPanics.         (* send on closed channel *)
Arguments Sent {A} _.
Arguments SendBlocks {A}.
Arguments SendPanics {A}.

(** [c <- v] *)
Definition send {A} (v : A) (c : t A) : send_result A :=
  if closed c then SendPanics
  else if length (buf c) <? cap c then Sent (mk (cap c) (buf c ++ [v]) false)
  else SendBlocks.

Inductive recv_result (A : Type) : Type :=
| Received (v : A) (c : t A)
| RecvClosed          (* closed and drained: the zero value, at once *)
| RecvBlocks.
Arguments Received {A} _ _.
Arguments RecvClosed {A}.
Arguments RecvBlocks {A}.

(** [<-c] *)
Definition recv {A} (c : t A) : recv_result A :=
  match buf c with
  | v :: rest => Received v (mk (cap c) rest (closed c))
  | [] => if closed c then RecvClosed else RecvBlocks
  end.

(** [close(c)]; [None] is the panic "close of closed channel". *)
Definition close {A} (c : t A) : option (t A) :=
  if closed c then None else Some (mk (cap c) (buf c) true).

(** Operations on a channel variable that may be nil: a nil channel is
    never ready, for sending or for receiving. *)
Definition send_nilable {A} (v : A) (c : option (t A)) : send_result A :=
  match c with Some c => send v c | None => SendBlocks end.

Definition recv_nilable {A} (c : option (t A)) : recv_result A :=
  match c with Some c => recv c | None => RecvBlocks end.

End Chan.

(** ** Data model *)

(** [time.Duration]: an int64 count of nanoseconds. *)
Abbreviation Duration := Z (only parsing).

(** Modelled from the spec: [pq.Notification] is declared in package pq,
    outside the listed sources.  The spec gives it as an immutable
    {Topic, Payload, SenderID}; the dispatcher reads only the topic,
    through the field [Channel]. *)
Record Notification := {
  BePid : Z;
  Channel : string;
  Extra : string
}.

(** What travels on a condition channel: a [*pq.Notification], nil being
    the resync marker. *)
Abbreviation Msg := (option Notification) (only parsing).

(** Modelled from the spec: the error values.  [errClosed] is the
    dispatcher's own; [pq.ErrChannelAlreadyOpen] and [pq.ErrChannelNotOpen]
    are declared in package pq; every other error a listener returns is
    opaque to the dispatcher. *)
Inductive error :=
| errClosed
| ErrChannelAlreadyOpen
| ErrChannelNotOpen
| SourceError (msg : string).

(** Modelled from the spec: the NotificationSource contract
    ([*pq.Listener], declared outside the listed sources):
    beginTopic, endTopic, probe and close, each answering with an error or
    nil.  The listener is a state machine of its own; the dispatcher only
    calls it. *)
Class Listener (L : Type) := {
  listener_Listen : string → L → option error * L;
  listener_Unlisten : string → L → option error * L;
  listener_Ping : L → option error * L;
  listener_Close : L → option error * L
}.

(** A condition channel is a reference into the heap of channels. *)
Abbreviation ChanRef := nat (only parsing).

(** The struct [NotifyCond].  The field [listener] is a pointer to the
    listener, whose state lives in [World] below. *)
Record NotifyCond := mkNotifyCond {
  closeWaitGroup : Z;
  closeChannel : option (Chan.t unit);
  closed : bool;
  newPingIntervalChannel : Chan.t Duration;
  broadcastOnPingTimeout : bool;
  lock : bool;
  channels : gmap string ChanRef
}.

Definition set_closeWaitGroup (n : Z) (s : NotifyCond) : NotifyCond :=
  mkNotifyCond n (closeChannel s) (closed s) (newPingIntervalChannel s)
    (broadcastOnPingTimeout s) (lock s) (channels s).
Definition set_closeChannel (c : option (Chan.t unit)) (s : NotifyCond) : NotifyCond :=
  mkNotifyCond (closeWaitGroup s) c (closed s) (newPingIntervalChannel s)
    (broadcastOnPingTimeout s) (lock s) (channels s).
Definition set_closed (b : bool) (s : NotifyCond) : NotifyCond :=
  mkNotifyCond (closeWaitGroup s) (closeChannel s) b (newPingIntervalChannel s)
    (broadcastOnPingTimeout s) (lock s) (channels s).
Definition set_newPingIntervalChannel (c : Chan.t Duration) (s : NotifyCond) : NotifyCond :=
  mkNotifyCond (closeWaitGroup s) (closeChannel s) (closed s) c
    (broadcastOnPingTimeout s) (lock s) (channels s).
Definition set_broadcastOnPingTimeout (b : bool) (s : NotifyCond) : NotifyCond :=
  mkNotifyCond (closeWaitGroup s) (closeChannel s) (closed s) (newPingIntervalChannel s)
    b (lock s) (channels s).
Definition set_lock (b : bool) (s : NotifyCond) : NotifyCond :=
  mkNotifyCond (closeWaitGroup s) (closeChannel s) (closed s) (newPingIntervalChannel s)
    (broadcastOnPingTimeout s) b (channels s).
Definition set_channels (m : gmap string ChanRef) (s : NotifyCond) : NotifyCond :=
  mkNotifyCond (closeWaitGroup s) (closeChannel s) (closed s) (newPingIntervalChannel s)
    (broadcastOnPingTimeout s) (lock s) m.

(** The memory the goroutines share: the dispatcher, the condition
    channels made so far (a reference is an index) and the listener. *)
Record World (L : Type) := mkWorld {
  nc : NotifyCond;
  heap : list (Chan.t Msg);
  listener : L
}.
Arguments mkWorld {L} _ _ _.
Arguments nc {L} _.
Arguments heap {L} _.
Arguments listener {L} _.

(** ** The monad of a goroutine's code *)

Inductive outcome (L A : Type) : Type :=
| Ret (a : A) (w : World L)             (* ran to the next stopping place *)
| Panics (msg : string) (w : World L)   (* panic, after the deferred calls *)
| Blocks.                               (* cannot proceed in this state *)
Arguments Ret {L A} _ _.
Arguments Panics {L A} _ _.
Arguments Blocks {L A}.

Definition M (L A : Type) : Type := World L → outcome L A.

#[global] Instance M_ret {L} : MRet (M L) := λ A a w, Ret a w.

#[global] Instance M_bind {L} : MBind (M L) := λ A B k m w,
  match m w with
  | Ret a w' => k a w'
  | Panics msg w' => Panics msg w'
  | Blocks => Blocks
  end.

Section Dispatcher.
Context {L : Type} `{!Listener L}.

Definition gets {A} (f : NotifyCond → A) : M L A := λ w, Ret (f (nc w)) w.

Definition modify (f : NotifyCond → NotifyCond) : M L unit :=
  λ w, Ret () (mkWorld (f (nc w)) (heap w) (listener w)).

Definition panic {A} (msg : string) : M L A := λ w, Panics msg w.

Definition block {A} : M L A := λ _, Blocks.

(** [s.lock.Lock()] and [s.lock.Unlock()] *)
Definition lock_Lock : M L unit :=
  λ w, if lock (nc w) then Blocks
       else Ret () (mkWorld (set_lock true (nc w)) (heap w) (listener w)).

Definition lock_Unlock : M L unit := modify (set_lock false).

(** [defer s.lock.Unlock()]: the unlock also runs when the body panics. *)
Definition defer_Unlock {A} (body : M L A) : M L A :=
  λ w, match body w with
       | Ret a w' => (lock_Unlock ;; mret a) w'
       | Panics msg w' => (lock_Unlock ;; panic msg) w'
       | Blocks => Blocks
       end.

(** [make(chan *pq.Notification, n)]: a fresh channel. *)
Definition make_chan (n : nat) : M L ChanRef :=
  λ w, Ret (length (heap w))
           (mkWorld (nc w) (heap w ++ [Chan.make n]) (listener w)).

(** [close(ch)] *)
Definition close_chan (ch : ChanRef) : M L unit :=
  λ w, match heap w !! ch with
       | Some c =>
           match Chan.close c with
           | Some c' => Ret () (mkWorld (nc w) (<[ch := c']> (heap w)) (listener w))
           | None => Panics "close of closed channel" w
           end
       | None => Panics "close of nil channel" w
       end.

(** [select { case ch <- n: default: }] *)
Definition send_or_drop (ch : ChanRef) (n : Msg) : M L unit :=
  λ w, match heap w !! ch with
       | Some c =>
           match Chan.send n c with
           | Chan.Sent c' => Ret () (mkWorld (nc w) (<[ch := c']> (heap w)) (listener w))
           | Chan.SendBlocks => Ret () w
           | Chan.SendPanics => Panics "send on closed channel" w
           end
       | None => Ret () w
       end.

(** A call into the listener. *)
Definition call_listener (f : L → option error * L) : M L (option error) :=
  λ w, let '(err, l') := f (listener w) in Ret err (mkWorld (nc w) (heap w) l').


(** ** Program counters *)

(** What an API call hands back to its caller. *)
Inductive result :=
| Listen_ret (ch : option ChanRef) (err : option error)
| Unlisten_ret (err : option error)
| Ping_ret (err : option error)
| SetPingInterval_ret
| SetBroadcastOnPingTimeout_ret
| Close_ret (err : option error).

(** Where a goroutine of the API stands.  The number in a comment is the
    line of notifycond.go the goroutine executes next. *)
Inductive pc :=
| Listen_lock (channel : string)                                   (* 126 *)
| Listen_listener (channel : string) (ch : ChanRef)                (* 142 *)
| Listen_remove (channel : string) (ch : ChanRef) (err : error)    (* 144 *)
| Unlisten_lock (channel : string)                                 (* 162 *)
| Unlisten_listener (channel : string) (ch : ChanRef)              (* 176 *)
| Unlisten_remove (channel : string) (ch : ChanRef)                (* 181 *)
| Unlisten_close (ch : ChanRef)                                    (* 182 *)
| Ping_listener                                                    (* 189 *)
| SetPingInterval_send (interval : Duration)                       (* 195 *)
| SetBroadcastOnPingTimeout_lock (b : bool)                        (* 201 *)
| Close_lock                                                       (* 224 *)
| Close_send                                       (* 230, holding s.lock *)
| Close_wait                                                       (* 234 *)
| Close_listener                                                   (* 235 *)
| pingTimeout_go                (* 208, the goroutine pingTimeout starts *)
| Returned (r : result)
| Finished                      (* a goroutine without a caller has ended *)
| Panicked (msg : string).

(** [time.Timer], as far as the loop uses it.  [armed]: the runtime has
    the timer pending and will send on [C] once its duration has passed.
    [C] is the timer's channel, which time.NewTimer makes with one slot;
    the runtime's send does not block (a tick that finds the slot taken is
    dropped).  [Stop] and [Reset] leave [C] alone: a tick sent before
    them stays in the slot until somebody receives it.  This is the timer
    of package time up to Go 1.22, and of every later toolchain for a
    program whose go.mod does not ask for go 1.23; notifycond.go neither
    checks the result of [Stop] nor drains [C].  (With the timers of a
    go 1.23 module, [Stop] and [Reset] also discard the tick: the runs of
    such a program are the runs of this model in which every tick is
    received before the next [Stop] or [Reset].)  When an armed timer
    expires is not modelled: it may expire at any later moment. *)
Record Timer := mkTimer {
  armed : bool;
  C : Chan.t unit
}.

Definition NewTimer (d : Duration) : Timer := mkTimer true (Chan.make 1).
Definition Timer_Reset (d : Duration) (t : Timer) : Timer := mkTimer true (C t).
Definition Timer_Stop (t : Timer) : Timer := mkTimer false (C t).

(** The runtime, when the duration of an armed timer has passed:
    [select { case t.C <- now: default: }]. *)
Definition Timer_expire (t : Timer) : option Timer :=
  if armed t then
    Some (mkTimer false
            match Chan.send () (C t) with
            | Chan.Sent c' => c'
            | _ => C t
            end)
  else None.

(** Where the goroutine of [mainDispatcherLoop] stands. *)
Inductive looppc :=
| loop_top                               (* 279 *)
| loop_select                            (* 285 *)
| loop_notify (n : Msg)                  (* 287 *)
| loop_shutdown                          (* 296 *)
| loop_pingTimeout_go                    (* 300, 207 *)
| loop_pingTimeout_lock                  (* 213 *)
| loop_returned                          (* 297 *)
| loop_panicked (msg : string).

(** The locals of [mainDispatcherLoop]. *)
Record Loop := mkLoop {
  pingTimer : Timer;
  pingInterval : option Duration;
  lpc : looppc
}.

(** The case a [select] takes.  A value arriving on [s.listener.Notify]
    is the listener's choice. *)
Inductive selected :=
| sel_Notify (n : Msg)
| sel_closeChannel
| sel_pingTimer
| sel_newPingInterval.

(** ** The code *)

(** lines 99-112.  The second message prints the two channels with %v in
    the source; their addresses are left out here. *)
Definition removeChannel (channel : string) (ch : ChanRef) : M L unit :=
  lock_Lock ;;
  defer_Unlock (
    m ← gets channels;
    match m !! channel with
    | None => panic ("channel " +:+ channel +:+ " not part of NotifyCond.channels")
    | Some oldch =>
        if decide (oldch = ch)
        then modify (set_channels (delete channel m))
        else panic ("unexpected channel in channel " +:+ channel)
    end).

(** lines 247-260; the caller holds s.lock. *)
Definition notify (channel : string) (n : Msg) : M L unit :=
  m ← gets channels;
  match m !! channel with
  | None => mret ()
  | Some ch => send_or_drop ch n
  end.

(** lines 240-244; the caller holds s.lock.  Go visits the keys of a map
    in an unspecified order; here it is the order of [map_to_list]. *)
Definition broadcast : M L unit :=
  m ← gets channels;
  foldr (λ channel rest, notify channel None ;; rest) (mret ()) (map_to_list m).*1.

(** [s.closeWaitGroup.Done()] *)
Definition closeWaitGroup_Done : M L unit :=
  n ← gets closeWaitGroup;
  if (n - 1 <? 0)%Z then panic "sync: negative WaitGroup counter"
  else modify (set_closeWaitGroup (n - 1)%Z).

(** lines 262-272 *)
Definition shutdown : M L unit :=
  lock_Lock ;;
  defer_Unlock (
    m ← gets channels;
    foldr (λ ch rest, close_chan ch ;; rest) (mret ()) (map_to_list m).*2 ;;
    closeWaitGroup_Done).

(** lines 213-217: what [pingTimeout] does after it has started the probe. *)
Definition pingTimeout_locked : M L unit :=
  lock_Lock ;;
  b ← gets broadcastOnPingTimeout;
  (if b : bool then broadcast else mret ()) ;;
  lock_Unlock.

(** One step of an API goroutine: from one stopping place to the next. *)
Definition goroutine_step (p : pc) : M L pc :=
  match p with
  | Listen_lock channel =>                                  (* 126-140 *)
      lock_Lock ;;
      c ← gets closed;
      if c : bool then
        lock_Unlock ;;
        mret (Returned (Listen_ret None (Some errClosed)))
      else
        m ← gets channels;
        match m !! channel with
        | Some _ =>
            lock_Unlock ;;
            mret (Returned (Listen_ret None (Some ErrChannelAlreadyOpen)))
        | None =>
            ch ← make_chan 1;
            modify (set_channels (<[channel := ch]> m)) ;;
            lock_Unlock ;;
            mret (Listen_listener channel ch)
        end
  | Listen_listener channel ch =>                           (* 142-148 *)
      err ← call_listener (listener_Listen channel);
      match err with
      | Some e => mret (Listen_remove channel ch e)
      | None => mret (Returned (Listen_ret (Some ch) None))
      end
  | Listen_remove channel ch e =>                           (* 144-145 *)
      removeChannel channel ch ;;
      mret (Returned (Listen_ret None (Some e)))
  | Unlisten_lock channel =>                                (* 162-174 *)
      lock_Lock ;;
      c ← gets closed;
      if c : bool then
        lock_Unlock ;;
        mret (Returned (Unlisten_ret (Some errClosed)))
      else
        m ← gets channels;
        match m !! channel with
        | None =>
            lock_Unlock ;;
            mret (Returned (Unlisten_ret (Some ErrChannelNotOpen)))
        | Some ch =>
            lock_Unlock ;;
            mret (Unlisten_listener channel ch)
        end
  | Unlisten_listener channel ch =>                         (* 176-179 *)
      err ← call_listener (listener_Unlisten channel);
      match err with
      | Some e => mret (Returned (Unlisten_ret (Some e)))
      | None => mret (Unlisten_remove channel ch)
      end
  | Unlisten_remove channel ch =>                           (* 181 *)
      removeChannel channel ch ;;
      mret (Unlisten_close ch)
  | Unlisten_close ch =>                                    (* 182-184 *)
      close_chan ch ;;
      mret (Returned (Unlisten_ret None))
  | Ping_listener =>                                        (* 189 *)
      err ← call_listener listener_Ping;
      mret (Returned (Ping_ret err))
  | SetPingInterval_send interval =>                        (* 195 *)
      c ← gets newPingIntervalChannel;
      match Chan.send interval c with
      | Chan.Sent c' =>
          modify (set_newPingIntervalChannel c') ;;
          mret (Returned SetPingInterval_ret)
      | Chan.SendBlocks => block
      | Chan.SendPanics => panic "send on closed channel"
      end
  | SetBroadcastOnPingTimeout_lock b =>                     (* 201-203 *)
      lock_Lock ;;
      modify (set_broadcastOnPingTimeout b) ;;
      lock_Unlock ;;
      mret (Returned SetBroadcastOnPingTimeout_ret)
  | Close_lock =>                                           (* 224-229 *)
      lock_Lock ;;
      c ← gets closed;
      if c : bool then
        lock_Unlock ;;
        mret (Returned (Close_ret (Some errClosed)))
      else
        modify (set_closed true) ;;
        mret Close_send
  | Close_send =>                                           (* 230-231 *)
      cc ← gets closeChannel;
      match Chan.send_nilable () cc with
      | Chan.Sent c' =>
          modify (set_closeChannel (Some c')) ;;
          lock_Unlock ;;
          mret Close_wait
      | Chan.SendBlocks => block
      | Chan.SendPanics => panic "send on closed channel"
      end
  | Close_wait =>                                           (* 234 *)
      n ← gets closeWaitGroup;
      if (n =? 0)%Z then mret Close_listener else block
  | Close_listener =>                                       (* 235 *)
      err ← call_listener listener_Close;
      mret (Returned (Close_ret err))
  | pingTimeout_go =>                                       (* 208 *)
      _ ← call_listener listener_Ping;
      mret Finished
  | Returned _ | Finished | Panicked _ => block
  end.

(** One step of the goroutine of [mainDispatcherLoop], lines 275-306.
    [sel] is the case the select takes; it matters at line 285 only. *)
Definition mainDispatcherLoop_step (sel : selected) (l : Loop) : M L (Loop * list pc) :=
  let goto t i p := mkLoop t i p in
  match lpc l with
  | loop_top =>                                             (* 279-283 *)
      let t := match pingInterval l with
               | Some d => Timer_Reset d (pingTimer l)
               | None => Timer_Stop (pingTimer l)
               end in
      mret (goto t (pingInterval l) loop_select, [])
  | loop_select =>                                          (* 285 *)
      match sel with
      | sel_Notify n =>                                     (* 286 *)
          mret (goto (pingTimer l) (pingInterval l) (loop_notify n), [])
      | sel_closeChannel =>                                 (* 295 *)
          cc ← gets closeChannel;
          match Chan.recv_nilable cc with
          | Chan.Received _ c' =>
              modify (set_closeChannel (Some c')) ;;
              mret (goto (pingTimer l) (pingInterval l) loop_shutdown, [])
          | Chan.RecvClosed =>
              mret (goto (pingTimer l) (pingInterval l) loop_shutdown, [])
          | Chan.RecvBlocks => block
          end
      | sel_pingTimer =>                                    (* 299 *)
          match Chan.recv (C (pingTimer l)) with
          | Chan.Received _ c' =>
              mret (goto (mkTimer (armed (pingTimer l)) c') (pingInterval l)
                      loop_pingTimeout_go, [])
          | Chan.RecvClosed =>
              mret (goto (pingTimer l) (pingInterval l) loop_pingTimeout_go, [])
          | Chan.RecvBlocks => block
          end
      | sel_newPingInterval =>                              (* 302-303 *)
          c ← gets newPingIntervalChannel;
          match Chan.recv c with
          | Chan.Received d c' =>
              modify (set_newPingIntervalChannel c') ;;
              mret (goto (pingTimer l) (Some d) loop_top, [])
          | Chan.RecvClosed =>
              mret (goto (pingTimer l) (Some 0%Z) loop_top, [])
          | Chan.RecvBlocks => block
          end
      end
  | loop_notify n =>                                        (* 287-293 *)
      lock_Lock ;;
      match n with
      | None => broadcast
      | Some n' => notify (Channel n') n
      end ;;
      lock_Unlock ;;
      mret (goto (pingTimer l) (pingInterval l) loop_top, [])
  | loop_shutdown =>                                        (* 296-297 *)
      shutdown ;;
      mret (goto (pingTimer l) (pingInterval l) loop_returned, [])
  | loop_pingTimeout_go =>                                  (* 207-209 *)
      mret (goto (pingTimer l) (pingInterval l) loop_pingTimeout_lock, [pingTimeout_go])
  | loop_pingTimeout_lock =>                                (* 213-217 *)
      pingTimeout_locked ;;
      mret (goto (pingTimer l) (pingInterval l) loop_top, [])
  | loop_returned | loop_panicked _ => block
  end.

(** ** API calls run on their own *)

(** Runs a goroutine from [p] until it returns to its caller, while no
    other goroutine moves.  [Blocks] means the goroutine is stuck in a
    state where it cannot move (or that [fuel] steps were not enough; four
    steps are enough for every call, see [Unlisten]). *)
Fixpoint run_call (fuel : nat) (p : pc) : M L result :=
  match p with
  | Returned r => mret r
  | _ =>
      match fuel with
      | 0 => block
      | S fuel' => p' ← goroutine_step p; run_call fuel' p'
      end
  end.

Definition Listen (channel : string) : M L result := run_call 4 (Listen_lock channel).
Definition Unlisten (channel : string) : M L result := run_call 4 (Unlisten_lock channel).
Definition Ping : M L result := run_call 4 Ping_listener.
Definition SetPingInterval (interval : Duration) : M L result :=
  run_call 4 (SetPingInterval_send interval).
Definition SetBroadcastOnPingTimeout (b : bool) : M L result :=
  run_call 4 (SetBroadcastOnPingTimeout_lock b).
Definition Close : M L result := run_call 4 Close_lock.

(** ** The whole program *)

Record System := mkSystem {
  world : World L;
  mainLoop : Loop;
  goroutines : list pc
}.

(** lines 88-97.  [closeChannel] is not among the fields the literal sets:
    it keeps its zero value, the nil channel.  The goroutine started on
    line 95 begins with [time.NewTimer(1)], line 276. *)
Definition NewNotifyCond (l : L) : System :=
  mkSystem
    (mkWorld
       {| closeWaitGroup := 1%Z;
          closeChannel := None;
          closed := false;
          newPingIntervalChannel := Chan.make 1;
          broadcastOnPingTimeout := false;
          lock := false;
          channels := ∅ |}
       [] l)
    (mkLoop (NewTimer 1%Z) None loop_top)
    [].

Inductive api :=
| call_Listen (channel : string)
| call_Unlisten (channel : string)
| call_Ping
| call_SetPingInterval (interval : Duration)
| call_SetBroadcastOnPingTimeout (b : bool)
| call_Close.

Definition entry (c : api) : pc :=
  match c with
  | call_Listen channel => Listen_lock channel
  | call_Unlisten channel => Unlisten_lock channel
  | call_Ping => Ping_listener
  | call_SetPingInterval d => SetPingInterval_send d
  | call_SetBroadcastOnPingTimeout b => SetBroadcastOnPingTimeout_lock b
  | call_Close => Close_lock
  end.

(** What can happen next in the program. *)
Inductive action :=
| act_call (c : api)           (* the application makes a call, on a goroutine of its own *)
| act_go (i : nat)             (* goroutine number i moves on *)
| act_loop (sel : selected)    (* the dispatcher loop moves on *)
| act_consume (ch : ChanRef)   (* a consumer receives from a condition channel *)
| act_expire.                  (* the runtime: the duration of the armed timer has passed *)

Definition set_lpc (p : looppc) (l : Loop) : Loop :=
  mkLoop (pingTimer l) (pingInterval l) p.

(** [None]: the action cannot happen in this state. *)
Definition exec (a : action) (sys : System) : option System :=
  match a with
  | act_call c =>
      Some (mkSystem (world sys) (mainLoop sys) (goroutines sys ++ [entry c]))
  | act_go i =>
      p ← goroutines sys !! i;
      match goroutine_step p (world sys) with
      | Ret p' w' =>
          Some (mkSystem w' (mainLoop sys) (<[i := p']> (goroutines sys)))
      | Panics msg w' =>
          Some (mkSystem w' (mainLoop sys) (<[i := Panicked msg]> (goroutines sys)))
      | Blocks => None
      end
  | act_loop sel =>
      match mainDispatcherLoop_step sel (mainLoop sys) (world sys) with
      | Ret (l', started) w' =>
          Some (mkSystem w' l' (goroutines sys ++ started))
      | Panics msg w' =>
          Some (mkSystem w' (set_lpc (loop_panicked msg) (mainLoop sys)) (goroutines sys))
      | Blocks => None
      end
  | act_consume ch =>
      c ← heap (world sys) !! ch;
      match Chan.recv c with
      | Chan.Received _ c' =>
          Some (mkSystem
                  (mkWorld (nc (world sys)) (<[ch := c']> (heap (world sys)))
                     (listener (world sys)))
                  (mainLoop sys) (goroutines sys))
      | Chan.RecvClosed => Some sys
      | Chan.RecvBlocks => None
      end
  | act_expire =>
      t ← Timer_expire (pingTimer (mainLoop sys));
      Some (mkSystem (world sys)
              (mkLoop t (pingInterval (mainLoop sys)) (lpc (mainLoop sys)))
              (goroutines sys))
  end.

Fixpoint run (acts : list action) (sys : System) : option System :=
  match acts with
  | [] => Some sys
  | a :: rest => sys' ← exec a sys; run rest sys'
  end.

(** The states the program can be in. *)
Definition reachable (l : L) (sys : System) : Prop :=
  ∃ acts, run acts (NewNotifyCond l) = Some sys.

End Dispatcher.

Arguments System : clear implicits.

(** ** Two listeners to run the program with *)

(** A listener whose every call succeeds. *)
#[global] Instance cooperating : Listener unit := {|
  listener_Listen _ l := (None, l);
  listener_Unlisten _ l := (None, l);
  listener_Ping l := (None, l);
  listener_Close l := (None, l)
|}.

(** A listener that answers from a script, one entry a call, and with nil
    once the script is used up. *)
Definition scripted_answer (l : list (option error)) : option error * list (option error) :=
  match l with
  | [] => (None, [])
  | e :: rest => (e, rest)
  end.

#[global] Instance scripted : Listener (list (option error)) := {|
  listener_Listen _ := scripted_answer;
  listener_Unlisten _ := scripted_answer;
  listener_Ping := scripted_answer;
  listener_Close := scripted_answer
|}.

(** ** Runs the theorems are tried on *)

Definition connection_lost : error := SourceError "connection lost".

(** Listen("jobs") from its call to its return. *)
Definition acts_listen : list action :=
  [act_call (call_Listen "jobs"); act_go 0; act_go 0].

(** ... then a Close call, as far as it gets. *)
Definition acts_close : list action :=
  acts_listen ++ [act_call call_Close; act_go 1].

(** ... or the loop receiving the nil notification. *)
Definition acts_resync : list action :=
  acts_listen ++ [act_loop (sel_Notify None); act_loop (sel_Notify None)].

(** SetPingInterval(5), the loop taking the interval and arming the
    timer, the timer expiring, and the loop receiving the tick up to the
    start of the probe. *)
Definition acts_probe : list action :=
  [act_call (call_SetPingInterval 5); act_go 0;
   act_loop sel_newPingInterval; act_loop sel_newPingInterval;
   act_loop sel_pingTimer; act_expire;
   act_loop sel_pingTimer; act_loop sel_pingTimer].

(** The timer made on line 276 expires before the loop reaches the Stop
    on line 282; the loop then stops the timer, receives the tick in its
    select and starts the probe, which calls the listener. *)
Definition acts_stale_tick : list action :=
  [act_expire; act_loop sel_pingTimer; act_loop sel_pingTimer;
   act_loop sel_pingTimer; act_go 0].

(** The run [acts_probe] cut after the loop has received the tick, then a
    Close call as far as it gets, the loop starting the probe and coming
    to the Lock of [pingTimeout], a SetPingInterval(7) call that fills
    the slot, and a SetPingInterval(9) call, which finds it taken. *)
Definition acts_stuck : list action :=
  take 7 acts_probe ++
  [act_call call_Close; act_go 1; act_loop sel_pingTimer;
   act_call (call_SetPingInterval 7); act_go 3;
   act_call (call_SetPingInterval 9)].

(** The state a run from a new dispatcher ends in (the new dispatcher
    itself if the run cannot happen). *)
Definition after {L : Type} `{!Listener L} (acts : list action) (l : L) : System L :=
  default (NewNotifyCond l) (run acts (NewNotifyCond l)).

(** The notification of the spec's scenario: topic "jobs", payload "42". *)
Definition job_42 : Notification :=
  {| BePid := 7; Channel := "jobs"; Extra := "42" |}.

(** The run [acts_listen], then the loop receiving the notification
    [job_42]. *)
Definition acts_job : list action :=
  acts_listen ++ [act_loop (sel_Notify None); act_loop (sel_Notify (Some job_42))].

(** SetPingInterval(0) called while the loop waits in its select. *)
Definition acts_interval : list action :=
  [act_call (call_SetPingInterval 0); act_loop sel_newPingInterval].

(** ** Specification vocabulary *)

(** What [select { case c <- v: default: }] leaves in an open channel. *)
Definition offer {A} (v : A) (c : Chan.t A) : Chan.t A :=
  match Chan.send v c with
  | Chan.Sent c' => c'
  | _ => c
  end.

Section Invariants.
Context {L : Type} `{!Listener L}.

(** The loop handling the notifications [ns] one after the other, as far
    as the condition channels are concerned (line 291 for each). *)
Definition notify_all (ns : list Notification) : M L unit :=
  foldr (λ n rest, notify (Channel n) (Some n) ;; rest) (mret ()) ns.

(** Every condition channel was made with capacity 1 and holds at most
    one value. *)
Definition heap_ok (w : World L) : Prop :=
  ∀ ch c, heap w !! ch = Some c → Chan.cap c = 1 ∧ length (Chan.buf c) ≤ 1.

(** Every registered topic has an open channel, which no other topic has. *)
Definition channels_ok (w : World L) : Prop :=
  (∀ T ch, channels (nc w) !! T = Some ch →
     ∃ c, heap w !! ch = Some c ∧ Chan.closed c = false) ∧
  (∀ T1 T2 ch, channels (nc w) !! T1 = Some ch →
     channels (nc w) !! T2 = Some ch → T1 = T2).

Definition wf (w : World L) : Prop := heap_ok w ∧ channels_ok w.

(** [ch] is the channel of a registered topic. *)
Definition registered (w : World L) (ch : ChanRef) : Prop :=
  ∃ T, channels (nc w) !! T = Some ch.

(** A Close call that got past the send on line 230. *)
Definition past_send (p : pc) : bool :=
  match p with
  | Close_wait | Close_listener | Returned (Close_ret _) => true
  | _ => false
  end.

(** What holds of a goroutine at [p]: no Close call is past its send, and
    the channel Unlisten is about to close is out of the map. *)
Definition pc_ok (w : World L) (p : pc) : Prop :=
  past_send p = false ∧
  match p with
  | Unlisten_close ch => ch < length (heap w) ∧ ¬ registered w ch
  | _ => True
  end.

(** What holds of the loop: it has not received from closeChannel, the
    channel of its timer is an open one-slot channel, and past the top of
    an iteration its timer is armed only if an interval is set. *)
Definition loop_ok (l : Loop) : Prop :=
  lpc l ≠ loop_shutdown ∧ lpc l ≠ loop_returned ∧
  (Chan.cap (C (pingTimer l)) = 1 ∧ Chan.closed (C (pingTimer l)) = false) ∧
  (lpc l ≠ loop_top → armed (pingTimer l) = true → is_Some (pingInterval l)).

(** The part of the invariant that is about the shared memory: the close
    channel is nil, a closed dispatcher has its mutex held, the interval
    channel is an open one-slot channel, and the condition channels are
    well formed. *)
Definition world_ok (w : World L) : Prop :=
  closeChannel (nc w) = None ∧
  (closed (nc w) = true → lock (nc w) = true) ∧
  (Chan.cap (newPingIntervalChannel (nc w)) = 1 ∧
   Chan.closed (newPingIntervalChannel (nc w)) = false) ∧
  wf w.

(** How a step may change the memory: no channel goes away, and a topic is
    only ever given a channel made in that step. *)
Definition grows (w w' : World L) : Prop :=
  length (heap w) ≤ length (heap w') ∧
  ∀ T ch, channels (nc w') !! T = Some ch →
          channels (nc w) !! T = Some ch ∨ length (heap w) ≤ ch.

(** The invariant of the program. *)
Record Inv (sys : System L) : Prop := {
  inv_world : world_ok (world sys);
  inv_pcs : Forall (pc_ok (world sys)) (goroutines sys);
  inv_loop : loop_ok (mainLoop sys)
}.

(** The goroutines [pingTimeout] has started: running or ended. *)
Definition is_probe (p : pc) : bool :=
  match p with
  | pingTimeout_go | Finished => true
  | _ => false
  end.

Definition is_SetPingInterval (p : pc) : bool :=
  match p with
  | SetPingInterval_send _ => true
  | _ => false
  end.

(** The ticks the loop can still receive from its timer as things stand:
    one if the timer is armed, and what waits in its channel. *)
Definition ticks_left (t : Timer) : nat :=
  (if armed t then 1 else 0) + length (Chan.buf (C t)).

(** The probes started so far, the one the loop is about to start
    included. *)
Definition probes (sys : System L) : nat :=
  (match lpc (mainLoop sys) with loop_pingTimeout_go => 1 | _ => 0 end) +
  length (filter (λ p, is_probe p = true) (goroutines sys)).

(** No keepalive interval has reached the program: none is set and none
    is on its way; and all in all at most [n] ticks have been or can
    still be received from the timer. *)
Definition no_interval (n : nat) (sys : System L) : Prop :=
  pingInterval (mainLoop sys) = None ∧
  Chan.buf (newPingIntervalChannel (nc (world sys))) = [] ∧
  Forall (λ p, is_SetPingInterval p = false) (goroutines sys) ∧
  ticks_left (pingTimer (mainLoop sys)) + probes sys ≤ n ∧
  (lpc (mainLoop sys) = loop_pingTimeout_lock → 1 ≤ probes sys).

(** The application never calls SetPingInterval in [acts]. *)
Definition sets_no_interval (a : action) : bool :=
  match a with
  | act_call (call_SetPingInterval _) => false
  | _ => true
  end.

(** The loop can never again receive: it has left [mainDispatcherLoop]. *)
Definition loop_gone (l : Loop) : bool :=
  match lpc l with
  | loop_returned | loop_panicked _ => true
  | _ => false
  end.

End Invariants.

(** The stopping places at which a goroutine is about to take s.lock. *)
Definition needs_lock (p : pc) : bool :=
  match p with
  | Listen_lock _ | Listen_remove _ _ _ | Unlisten_lock _ | Unlisten_remove _ _
  | SetBroadcastOnPingTimeout_lock _ | Close_lock => true
  | _ => false
  end.

(** * Proofs *)

Arguments run_call : simpl never.

Ltac munfold :=
  unfold mbind, M_bind, mret, M_ret, gets, modify, panic, block, lock_Lock,
    lock_Unlock, defer_Unlock, make_chan, close_chan, send_or_drop,
    call_listener in *.

Section Calls.
Context {L : Type} `{!Listener L}.

Lemma unlock_restores (s : NotifyCond) :
  lock s = false → set_lock false (set_lock true s) = s.
Proof. destruct s; simpl; intros ->; reflexivity. Qed.

Lemma world_eta (w : World L) : mkWorld (nc w) (heap w) (listener w) = w.
Proof. by destruct w. Qed.

Lemma run_call_Returned fuel r (w : World L) :
  run_call fuel (Returned r) w = Ret r w.
Proof. by destruct fuel. Qed.

Lemma run_call_step fuel p (w : World L) :
  (∀ r, p ≠ Returned r) →
  run_call (S fuel) p w =
  match goroutine_step p w with
  | Ret p' w' => run_call fuel p' w'
  | Panics msg w' => Panics msg w'
  | Blocks => Blocks
  end.
Proof. intros Hp. destruct p; try done. by destruct (Hp r). Qed.

Ltac step := rewrite run_call_step by done; simpl; munfold; simpl.
Ltac finish :=
  rewrite ?run_call_Returned;
  match goal with
  | w : World _ |- _ => destruct w as [[] ? ?]; simpl in *; subst; reflexivity
  end.

(** *** removeChannel *)

Lemma removeChannel_ok channel ch (w : World L) :
  lock (nc w) = false →
  channels (nc w) !! channel = Some ch →
  removeChannel channel ch w =
  Ret () (mkWorld (set_channels (delete channel (channels (nc w))) (nc w))
            (heap w) (listener w)).
Proof.
  intros Hl Hm. unfold removeChannel. munfold. simpl. rewrite Hl. simpl.
  rewrite Hm, decide_True by done. simpl.
  destruct w as [[] ? ?]; simpl in *; subst; reflexivity.
Qed.

Lemma removeChannel_absent channel ch (w : World L) :
  lock (nc w) = false →
  channels (nc w) !! channel = None →
  removeChannel channel ch w =
  Panics ("channel " +:+ channel +:+ " not part of NotifyCond.channels") w.
Proof.
  intros Hl Hm. unfold removeChannel. munfold. simpl. rewrite Hl. simpl.
  rewrite Hm. simpl.
  destruct w as [[] ? ?]; simpl in *; subst; reflexivity.
Qed.

Lemma removeChannel_other channel ch oldch (w : World L) :
  lock (nc w) = false →
  channels (nc w) !! channel = Some oldch → oldch ≠ ch →
  removeChannel channel ch w =
  Panics ("unexpected channel in channel " +:+ channel) w.
Proof.
  intros Hl Hm Hne. unfold removeChannel. munfold. simpl. rewrite Hl. simpl.
  rewrite Hm, decide_False by done. simpl.
  destruct w as [[] ? ?]; simpl in *; subst; reflexivity.
Qed.

(** *** Listen *)

Lemma Listen_lock_inserts channel (w : World L) :
  lock (nc w) = false → closed (nc w) = false →
  channels (nc w) !! channel = None →
  goroutine_step (Listen_lock channel) w =
  Ret (Listen_listener channel (length (heap w)))
    (mkWorld
       (set_channels (<[channel := length (heap w)]> (channels (nc w))) (nc w))
       (heap w ++ [Chan.make 1]) (listener w)).
Proof.
  intros Hl Hc Hm. simpl. munfold. simpl. rewrite Hl. simpl. rewrite Hc. simpl.
  rewrite Hm. simpl.
  destruct w as [[] ? ?]; simpl in *; subst; reflexivity.
Qed.

Lemma Listen_closed channel (w : World L) :
  lock (nc w) = false → closed (nc w) = true →
  Listen channel w = Ret (Listen_ret None (Some errClosed)) w.
Proof.
  intros Hl Hc. unfold Listen. step. rewrite Hl. simpl. rewrite Hc. simpl.
  finish.
Qed.

Lemma Listen_already_open channel ch (w : World L) :
  lock (nc w) = false → closed (nc w) = false →
  channels (nc w) !! channel = Some ch →
  Listen channel w = Ret (Listen_ret None (Some ErrChannelAlreadyOpen)) w.
Proof.
  intros Hl Hc Hm. unfold Listen. step. rewrite Hl. simpl. rewrite Hc. simpl.
  rewrite Hm. simpl. finish.
Qed.

Lemma Listen_listener_error channel e l' (w : World L) :
  lock (nc w) = false → closed (nc w) = false →
  channels (nc w) !! channel = None →
  listener_Listen channel (listener w) = (Some e, l') →
  Listen channel w =
  Ret (Listen_ret None (Some e)) (mkWorld (nc w) (heap w ++ [Chan.make 1]) l').
Proof.
  intros Hl Hc Hm Hs. unfold Listen.
  rewrite run_call_step, Listen_lock_inserts by done.
  step. rewrite Hs. simpl.
  step. rewrite removeChannel_ok; simpl; rewrite ?lookup_insert_eq; try done.
  rewrite delete_insert_id by done. finish.
Qed.

Lemma Listen_ok channel l' (w : World L) :
  lock (nc w) = false → closed (nc w) = false →
  channels (nc w) !! channel = None →
  listener_Listen channel (listener w) = (None, l') →
  Listen channel w =
  Ret (Listen_ret (Some (length (heap w))) None)
    (mkWorld
       (set_channels (<[channel := length (heap w)]> (channels (nc w))) (nc w))
       (heap w ++ [Chan.make 1]) l').
Proof.
  intros Hl Hc Hm Hs. unfold Listen.
  rewrite run_call_step, Listen_lock_inserts by done.
  step. rewrite Hs. simpl. by rewrite run_call_Returned.
Qed.

(** *** Unlisten *)

Lemma Unlisten_closed channel (w : World L) :
  lock (nc w) = false → closed (nc w) = true →
  Unlisten channel w = Ret (Unlisten_ret (Some errClosed)) w.
Proof.
  intros Hl Hc. unfold Unlisten. step. rewrite Hl. simpl. rewrite Hc. simpl.
  finish.
Qed.

Lemma Unlisten_not_open channel (w : World L) :
  lock (nc w) = false → closed (nc w) = false →
  channels (nc w) !! channel = None →
  Unlisten channel w = Ret (Unlisten_ret (Some ErrChannelNotOpen)) w.
Proof.
  intros Hl Hc Hm. unfold Unlisten. step. rewrite Hl. simpl. rewrite Hc. simpl.
  rewrite Hm. simpl. finish.
Qed.

Lemma Unlisten_lock_found channel ch (w : World L) :
  lock (nc w) = false → closed (nc w) = false →
  channels (nc w) !! channel = Some ch →
  goroutine_step (Unlisten_lock channel) w = Ret (Unlisten_listener channel ch) w.
Proof.
  intros Hl Hc Hm. simpl. munfold. simpl. rewrite Hl. simpl. rewrite Hc. simpl.
  rewrite Hm. simpl.
  destruct w as [[] ? ?]; simpl in *; subst; reflexivity.
Qed.

Lemma Unlisten_listener_error channel ch e l' (w : World L) :
  lock (nc w) = false → closed (nc w) = false →
  channels (nc w) !! channel = Some ch →
  listener_Unlisten channel (listener w) = (Some e, l') →
  Unlisten channel w =
  Ret (Unlisten_ret (Some e)) (mkWorld (nc w) (heap w) l').
Proof.
  intros Hl Hc Hm Hs. unfold Unlisten.
  rewrite run_call_step, (Unlisten_lock_found _ ch) by done.
  step. rewrite Hs. simpl. by rewrite run_call_Returned.
Qed.

Lemma Unlisten_ok channel ch c l' (w : World L) :
  lock (nc w) = false → closed (nc w) = false →
  channels (nc w) !! channel = Some ch →
  listener_Unlisten channel (listener w) = (None, l') →
  heap w !! ch = Some c → Chan.closed c = false →
  Unlisten channel w =
  Ret (Unlisten_ret None)
    (mkWorld (set_channels (delete channel (channels (nc w))) (nc w))
       (<[ch := Chan.mk (Chan.cap c) (Chan.buf c) true]> (heap w)) l').
Proof.
  intros Hl Hc Hm Hs Hh Ho. unfold Unlisten.
  rewrite run_call_step, (Unlisten_lock_found _ ch) by done.
  step. rewrite Hs. simpl.
  step. rewrite removeChannel_ok by done. simpl.
  step. rewrite Hh. unfold Chan.close. rewrite Ho.
  by rewrite run_call_Returned.
Qed.

Lemma Unlisten_closes_twice channel ch c l' (w : World L) :
  lock (nc w) = false → closed (nc w) = false →
  channels (nc w) !! channel = Some ch →
  listener_Unlisten channel (listener w) = (None, l') →
  heap w !! ch = Some c → Chan.closed c = true →
  Unlisten channel w =
  Panics "close of closed channel"
    (mkWorld (set_channels (delete channel (channels (nc w))) (nc w)) (heap w) l').
Proof.
  intros Hl Hc Hm Hs Hh Ho. unfold Unlisten.
  rewrite run_call_step, (Unlisten_lock_found _ ch) by done.
  step. rewrite Hs. simpl.
  step. rewrite removeChannel_ok by done. simpl.
  step. rewrite Hh. unfold Chan.close. by rewrite Ho.
Qed.

(** *** Ping and the two setters *)

Lemma Ping_forwards (w : World L) :
  Ping w =
  Ret (Ping_ret (listener_Ping (listener w)).1)
    (mkWorld (nc w) (heap w) (listener_Ping (listener w)).2).
Proof.
  unfold Ping. step. destruct (listener_Ping (listener w)). simpl.
  by rewrite run_call_Returned.
Qed.

Lemma SetBroadcastOnPingTimeout_ok b (w : World L) :
  lock (nc w) = false →
  SetBroadcastOnPingTimeout b w =
  Ret SetBroadcastOnPingTimeout_ret
    (mkWorld (set_broadcastOnPingTimeout b (nc w)) (heap w) (listener w)).
Proof.
  intros Hl. unfold SetBroadcastOnPingTimeout. step. rewrite Hl. simpl.
  finish.
Qed.

Lemma SetPingInterval_ok d c' (w : World L) :
  Chan.send d (newPingIntervalChannel (nc w)) = Chan.Sent c' →
  SetPingInterval d w =
  Ret SetPingInterval_ret
    (mkWorld (set_newPingIntervalChannel c' (nc w)) (heap w) (listener w)).
Proof.
  intros Hs. unfold SetPingInterval. step. rewrite Hs. simpl.
  by rewrite run_call_Returned.
Qed.

Lemma SetPingInterval_full d (w : World L) :
  Chan.send d (newPingIntervalChannel (nc w)) = Chan.SendBlocks →
  SetPingInterval d w = Blocks.
Proof. intros Hs. unfold SetPingInterval. step. by rewrite Hs. Qed.

(** *** Close *)

Lemma Close_closed (w : World L) :
  lock (nc w) = false → closed (nc w) = true →
  Close w = Ret (Close_ret (Some errClosed)) w.
Proof.
  intros Hl Hc. unfold Close. step. rewrite Hl. simpl. rewrite Hc. simpl.
  finish.
Qed.

Lemma Close_nil_channel (w : World L) :
  lock (nc w) = false → closed (nc w) = false →
  closeChannel (nc w) = None →
  Close w = Blocks.
Proof.
  intros Hl Hc Hn. unfold Close. step. rewrite Hl. simpl. rewrite Hc. simpl.
  step. by rewrite Hn.
Qed.

End Calls.

(** ** Delivery: notify and broadcast *)

Section Delivery.
Context {L : Type} `{!Listener L}.

Lemma offer_cases {A} (v : A) c :
  (offer v c = c ∧ (Chan.closed c = true ∨ Chan.cap c ≤ length (Chan.buf c))) ∨
  (offer v c = Chan.mk (Chan.cap c) (Chan.buf c ++ [v]) false ∧
   Chan.closed c = false ∧ length (Chan.buf c) < Chan.cap c).
Proof.
  unfold offer, Chan.send. destruct (Chan.closed c) eqn:Ho; [left; auto|].
  destruct (length (Chan.buf c) <? Chan.cap c) eqn:Hlt.
  - right. apply Nat.ltb_lt in Hlt. auto.
  - left. apply Nat.ltb_ge in Hlt. auto.
Qed.

Lemma offer_cap {A} (v : A) c : Chan.cap (offer v c) = Chan.cap c.
Proof. destruct (offer_cases v c) as [[-> _]|[-> _]]; done. Qed.

Lemma offer_closed {A} (v : A) c : Chan.closed (offer v c) = Chan.closed c.
Proof. destruct (offer_cases v c) as [[-> _]|[-> [-> _]]]; done. Qed.

Lemma offer_length {A} (v : A) c :
  Chan.cap c = 1 → length (Chan.buf c) ≤ 1 → length (Chan.buf (offer v c)) ≤ 1.
Proof.
  intros Hc Hb. destruct (offer_cases v c) as [[-> _]|[-> [_ Hlt]]]; [done|].
  simpl. rewrite length_app. simpl. lia.
Qed.

Lemma offer_empty {A} (v : A) c :
  Chan.closed c = false → Chan.cap c = 1 → Chan.buf c = [] →
  offer v c = Chan.mk 1 [v] false.
Proof. unfold offer, Chan.send. by intros -> -> ->. Qed.

Lemma offer_pending {A} (v : A) c :
  Chan.cap c ≤ length (Chan.buf c) → offer v c = c.
Proof.
  intros Hb. destruct (offer_cases v c) as [[-> _]|[_ [_ Hlt]]]; [done|lia].
Qed.

Lemma offer_offer {A} (v1 v2 : A) c :
  Chan.cap c ≤ 1 → offer v2 (offer v1 c) = offer v1 c.
Proof.
  intros Hc. destruct (offer_cases v1 c) as [[E Hwhy]|[E [_ Hlt]]].
  - rewrite E. destruct Hwhy as [Ho|Hfull]; [|by apply offer_pending].
    unfold offer, Chan.send. by rewrite Ho.
  - apply offer_pending. rewrite E. simpl. rewrite length_app. simpl. lia.
Qed.

Lemma send_or_drop_open ch n c (w : World L) :
  heap w !! ch = Some c → Chan.closed c = false →
  send_or_drop ch n w =
  Ret () (mkWorld (nc w) (<[ch := offer n c]> (heap w)) (listener w)).
Proof.
  intros Hh Ho. unfold send_or_drop, offer. rewrite Hh.
  destruct (Chan.send n c) eqn:E.
  - done.
  - by rewrite list_insert_id, world_eta.
  - unfold Chan.send in E. rewrite Ho in E. by destruct (_ <? _).
Qed.

Lemma notify_unregistered channel n (w : World L) :
  channels (nc w) !! channel = None → notify channel n w = Ret () w.
Proof. intros Hm. unfold notify. munfold. simpl. by rewrite Hm. Qed.

Lemma notify_registered channel ch c n (w : World L) :
  channels (nc w) !! channel = Some ch →
  heap w !! ch = Some c → Chan.closed c = false →
  notify channel n w =
  Ret () (mkWorld (nc w) (<[ch := offer n c]> (heap w)) (listener w)).
Proof.
  intros Hm Hh Ho. unfold notify. munfold. simpl. rewrite Hm.
  by apply send_or_drop_open.
Qed.

Lemma notify_closed channel ch c n (w : World L) :
  channels (nc w) !! channel = Some ch →
  heap w !! ch = Some c → Chan.closed c = true →
  notify channel n w = Panics "send on closed channel" w.
Proof.
  intros Hm Hh Ho. unfold notify. munfold. simpl. rewrite Hm, Hh.
  unfold Chan.send. by rewrite Ho.
Qed.

(** an offer keeps a state well formed *)
Lemma wf_offer ch c n (w : World L) :
  wf w → heap w !! ch = Some c →
  wf (mkWorld (nc w) (<[ch := offer n c]> (heap w)) (listener w)).
Proof.
  intros [Hh [Hv Hi]] Hc. unfold wf, heap_ok, channels_ok. simpl.
  split; [|split].
  - intros ch' c' Hl. destruct (decide (ch = ch')) as [<-|Hne].
    + rewrite list_lookup_insert_eq in Hl by (by eapply lookup_lt_Some).
      simplify_eq. destruct (Hh _ _ Hc). rewrite offer_cap. split; [done|].
      by apply offer_length.
    + rewrite list_lookup_insert_ne in Hl by done. eauto.
  - intros T ch' Hm. destruct (Hv _ _ Hm) as (c' & Hc' & Ho).
    destruct (decide (ch = ch')) as [<-|Hne].
    + rewrite list_lookup_insert_eq by (by eapply lookup_lt_Some).
      assert (c' = c) as -> by congruence.
      eexists; split; [done|]. by rewrite offer_closed.
    + rewrite list_lookup_insert_ne by done. eauto.
  - done.
Qed.

Lemma notify_keys ks (w : World L) :
  wf w →
  ∃ w', foldr (λ channel rest, notify channel None ;; rest) (mret ()) ks w = Ret () w' ∧
        nc w' = nc w ∧ listener w' = listener w ∧
        length (heap w') = length (heap w) ∧ wf w' ∧
        ∀ ch, heap w' !! ch =
              if decide (Exists (λ T, channels (nc w) !! T = Some ch) ks)
              then offer None <$> heap w !! ch else heap w !! ch.
Proof.
  revert w. induction ks as [|k ks IH]; intros w Hwf.
  - exists w. do 5 (split; [done|]).
    intros ch. rewrite decide_False; [done|]. by intros ?%Exists_nil.
  - simpl. unfold mbind at 1, M_bind at 1.
    destruct (channels (nc w) !! k) as [chk|] eqn:Hk.
    + destruct Hwf as [Hh [Hv Hi]].
      destruct (Hv _ _ Hk) as (c & Hc & Ho).
      rewrite (notify_registered _ _ _ _ _ Hk Hc Ho).
      destruct (IH _ (wf_offer chk c None w (conj Hh (conj Hv Hi)) Hc))
        as (w' & -> & Hnc & Hl & Hlen & Hwf' & Hlk).
      exists w'. simpl in *. rewrite length_insert in Hlen.
      do 5 (split; [done|]).
      intros ch. rewrite Hlk.
      destruct (decide (ch = chk)) as [->|Hne].
      * rewrite list_lookup_insert_eq by (by eapply lookup_lt_Some).
        rewrite (decide_True (P := Exists _ (k :: ks))) by (by left).
        rewrite Hc. simpl. case_decide; [|done].
        rewrite offer_offer; [done|]. destruct (Hh _ _ Hc). lia.
      * rewrite list_lookup_insert_ne by done.
        case_decide as HE.
        -- rewrite decide_True; [done|]. by right.
        -- rewrite decide_False; [done|].
           rewrite Exists_cons. intros [?|?]; [congruence|done].
    + rewrite (notify_unregistered _ _ _ Hk).
      destruct (IH _ Hwf) as (w' & -> & Hnc & Hl & Hlen & Hwf' & Hlk).
      exists w'. do 5 (split; [done|]).
      intros ch. rewrite Hlk. case_decide as HE.
      * rewrite decide_True; [done|]. by right.
      * rewrite decide_False; [done|].
        rewrite Exists_cons. intros [?|?]; [congruence|done].
Qed.

Lemma broadcast_spec (w : World L) :
  wf w →
  ∃ w', broadcast w = Ret () w' ∧
        nc w' = nc w ∧ listener w' = listener w ∧
        length (heap w') = length (heap w) ∧ wf w' ∧
        (∀ ch, registered w ch → heap w' !! ch = offer None <$> heap w !! ch) ∧
        (∀ ch, ¬ registered w ch → heap w' !! ch = heap w !! ch).
Proof.
  intros Hwf. unfold broadcast. unfold mbind at 1, M_bind at 1, gets. 
  destruct (notify_keys (map_to_list (channels (nc w))).*1 w Hwf)
    as (w' & Hr & Hnc & Hl & Hlen & Hwf' & Hlk).
  exists w'. do 5 (split; [done|]). split.
  - intros ch [T HT]. rewrite Hlk, decide_True; [done|].
    apply Exists_exists. exists T. split; [|done].
    apply list_elem_of_fmap. exists (T, ch). split; [done|].
    by apply elem_of_map_to_list.
  - intros ch Hn. rewrite Hlk, decide_False; [done|].
    rewrite Exists_exists. intros (T & _ & HT). apply Hn. by exists T.
Qed.

Lemma notify_wf channel n (w : World L) :
  wf w →
  ∃ w', notify channel n w = Ret () w' ∧
        nc w' = nc w ∧ listener w' = listener w ∧
        length (heap w') = length (heap w) ∧ wf w'.
Proof.
  intros Hwf. destruct (channels (nc w) !! channel) as [ch|] eqn:Hm.
  - destruct Hwf as (Hok & Hv & Hi). destruct (Hv _ _ Hm) as (c & Hc & Ho).
    rewrite (notify_registered _ _ _ _ _ Hm Hc Ho). eexists. split; [done|].
    simpl. rewrite length_insert. do 3 (split; [done|]).
    by apply wf_offer.
  - rewrite notify_unregistered by done. by exists w.
Qed.

End Delivery.

(** ** The invariant is kept *)

Ltac lockfree El :=
  match goal with
  | |- context [lock (nc ?w)] => destruct (lock (nc w)) eqn:El; [done|]; simpl
  end.

Ltac triv :=
  unfold world_ok, pc_ok; simpl;
  repeat match goal with |- _ ∧ _ => split end; simpl;
  try done; try congruence; auto.

Section Preservation.
Context {L : Type} `{!Listener L}.

Lemma pc_ok_grows (w w' : World L) p : grows w w' → pc_ok w p → pc_ok w' p.
Proof.
  intros [Hlen Hmap] [Hp Hq]. split; [done|].
  destruct p; try done. destruct Hq as [Hlt Hn]. split; [lia|].
  intros [T HT]. destruct (Hmap _ _ HT) as [?|?]; [|lia].
  apply Hn. by exists T.
Qed.

Lemma grows_same (w w' : World L) :
  heap w' = heap w → channels (nc w') = channels (nc w) → grows w w'.
Proof. intros Hh Hm. split; [by rewrite Hh|]. rewrite Hm. auto. Qed.

Lemma wf_same (w w' : World L) :
  heap w' = heap w → channels (nc w') = channels (nc w) → wf w → wf w'.
Proof.
  intros Hh Hm. unfold wf, heap_ok, channels_ok. by rewrite Hh, Hm.
Qed.

Lemma wf_valid (w : World L) T ch :
  wf w → channels (nc w) !! T = Some ch → ch < length (heap w).
Proof.
  intros (_ & Hv & _) Hm. destruct (Hv _ _ Hm) as (c & Hc & _).
  by eapply lookup_lt_Some.
Qed.

Lemma wf_insert_fresh (w w' : World L) T :
  heap w' = heap w ++ [Chan.make 1] →
  channels (nc w') = <[T := length (heap w)]> (channels (nc w)) →
  wf w → wf w'.
Proof.
  intros Hh Hm Hwf. pose proof (wf_valid w) as Hlt.
  destruct Hwf as (Hok & Hv & Hi).
  unfold wf, heap_ok, channels_ok. rewrite Hh, Hm. split; [|split].
  - intros ch c Hc. apply lookup_app_Some in Hc as [Hc|[_ Hc]]; [eauto|].
    apply list_lookup_singleton_Some in Hc as [_ <-]. simpl. auto.
  - intros T' ch HT. apply lookup_insert_Some in HT as [[<- <-]|[_ HT]].
    + exists (Chan.make 1). split; [|done].
      by rewrite lookup_app_r, Nat.sub_diag by done.
    + destruct (Hv _ _ HT) as (c & Hc & Ho). exists c. split; [|done].
      by apply lookup_app_l_Some.
  - intros T1 T2 ch H1 H2.
    apply lookup_insert_Some in H1 as [[<- <-]|[Hn1 H1]];
      apply lookup_insert_Some in H2 as [[<- E2]|[Hn2 H2]]; try done.
    + apply (Hlt _ _ (conj Hok (conj Hv Hi))) in H2. lia.
    + subst. apply (Hlt _ _ (conj Hok (conj Hv Hi))) in H1. lia.
    + eauto.
Qed.

Lemma wf_delete (w w' : World L) T :
  heap w' = heap w →
  channels (nc w') = delete T (channels (nc w)) →
  wf w → wf w'.
Proof.
  intros Hh Hm (Hok & Hv & Hi).
  unfold wf, heap_ok, channels_ok. rewrite Hh, Hm. split; [done|split].
  - intros T' ch HT. apply lookup_delete_Some in HT as [_ HT]. eauto.
  - intros T1 T2 ch H1 H2. apply lookup_delete_Some in H1 as [_ H1].
    apply lookup_delete_Some in H2 as [_ H2]. eauto.
Qed.

(** a channel changes, but not whether it is closed, and it stays within
    its capacity *)
Lemma wf_update (w w' : World L) ch c c' :
  heap w !! ch = Some c →
  heap w' = <[ch := c']> (heap w) →
  channels (nc w') = channels (nc w) →
  Chan.cap c' = Chan.cap c → length (Chan.buf c') ≤ 1 →
  (Chan.closed c' = Chan.closed c ∨ ¬ registered w ch) →
  wf w → wf w'.
Proof.
  intros Hc Hh Hm Hcap Hbuf Hcl (Hok & Hv & Hi).
  unfold wf, heap_ok, channels_ok. rewrite Hh, Hm. split; [|split; [|done]].
  - intros ch' c'' Hl. destruct (decide (ch = ch')) as [<-|Hne].
    + rewrite list_lookup_insert_eq in Hl by (by eapply lookup_lt_Some).
      simplify_eq. destruct (Hok _ _ Hc). split; [congruence|done].
    + rewrite list_lookup_insert_ne in Hl by done. eauto.
  - intros T ch' HT. destruct (Hv _ _ HT) as (c'' & Hc'' & Ho).
    destruct (decide (ch = ch')) as [<-|Hne].
    + rewrite list_lookup_insert_eq by (by eapply lookup_lt_Some).
      assert (c'' = c) as -> by congruence.
      exists c'. split; [done|]. destruct Hcl as [->|Hn]; [done|].
      destruct Hn. by exists T.
    + rewrite list_lookup_insert_ne by done. eauto.
Qed.

Lemma grows_update (w w' : World L) ch c' :
  heap w' = <[ch := c']> (heap w) →
  channels (nc w') = channels (nc w) → grows w w'.
Proof.
  intros Hh Hm. split; [by rewrite Hh, length_insert|]. rewrite Hm. auto.
Qed.

Lemma grows_insert_fresh (w w' : World L) T c :
  heap w' = heap w ++ [c] →
  channels (nc w') = <[T := length (heap w)]> (channels (nc w)) → grows w w'.
Proof.
  intros Hh Hm. split; [rewrite Hh, length_app; lia|]. rewrite Hm.
  intros T' ch [[_ <-]|[_ ?]]%lookup_insert_Some; auto.
Qed.

Lemma grows_delete (w w' : World L) T :
  heap w' = heap w →
  channels (nc w') = delete T (channels (nc w)) → grows w w'.
Proof.
  intros Hh Hm. split; [by rewrite Hh|]. rewrite Hm.
  intros T' ch [_ ?]%lookup_delete_Some. auto.
Qed.

(** *** Every step keeps the invariant *)

Lemma goroutine_step_ok p (w : World L) :
  world_ok w → pc_ok w p →
  match goroutine_step p w with
  | Ret p' w' => world_ok w' ∧ pc_ok w' p' ∧ grows w w'
  | Panics _ w' => world_ok w' ∧ grows w w'
  | Blocks => True
  end.
Proof.
  intros (Hnil & Hlk & [Hcap Hopen] & Hwf) [Hps Hpc].
  assert (∀ w', heap w' = heap w → channels (nc w') = channels (nc w) → wf w')
    as Hsame by (intros; by eapply wf_same).
  pose proof (grows_same w) as Hgs.
  destruct p; simpl; unfold removeChannel; munfold; simpl.
  - (* Listen_lock *)
    lockfree El.
    destruct (closed (nc w)) eqn:Ec; simpl; [by specialize (Hlk eq_refl)|].
    destruct (channels (nc w) !! channel) as [oldch|] eqn:Em; simpl; triv.
    + by apply (wf_insert_fresh w _ channel).
    + by apply (grows_insert_fresh w _ channel (Chan.make 1)).
  - (* Listen_listener *)
    destruct (listener_Listen channel (listener w)) as [[e|] l'] eqn:Es; simpl; triv.
  - (* Listen_remove *)
    lockfree El.
    destruct (channels (nc w) !! channel) as [oldch|] eqn:Em; simpl;
      [destruct (decide (oldch = ch)) as [->|Hne]; simpl|]; triv.
    + by apply (wf_delete w _ channel).
    + by apply (grows_delete w _ channel).
  - (* Unlisten_lock *)
    lockfree El.
    destruct (closed (nc w)) eqn:Ec; simpl; [by specialize (Hlk eq_refl)|].
    destruct (channels (nc w) !! channel) as [oldch|] eqn:Em; simpl; triv.
  - (* Unlisten_listener *)
    destruct (listener_Unlisten channel (listener w)) as [[e|] l'] eqn:Es; simpl; triv.
  - (* Unlisten_remove *)
    lockfree El.
    destruct (channels (nc w) !! channel) as [oldch|] eqn:Em; simpl;
      [destruct (decide (oldch = ch)) as [->|Hne]; simpl|]; triv.
    + by apply (wf_delete w _ channel).
    + by eapply wf_valid.
    + intros [T HT]. simpl in HT.
      apply lookup_delete_Some in HT as [Hne HT].
      destruct Hwf as (_ & _ & Hi). by specialize (Hi _ _ _ Em HT).
    + by apply (grows_delete w _ channel).
  - (* Unlisten_close *)
    destruct Hpc as [Hlt Hnr].
    destruct (heap w !! ch) as [c|] eqn:Ec; simpl; [|triv].
    unfold Chan.close. destruct (Chan.closed c) eqn:Eo; simpl; triv.
    + apply (wf_update w _ ch c (Chan.mk (Chan.cap c) (Chan.buf c) true)); auto.
      simpl. destruct Hwf as (Hok & _). by destruct (Hok _ _ Ec).
    + by apply (grows_update w _ ch (Chan.mk (Chan.cap c) (Chan.buf c) true)).
  - (* Ping_listener *)
    destruct (listener_Ping (listener w)) as [e l'] eqn:Es; simpl; triv.
  - (* SetPingInterval_send *)
    unfold Chan.send. rewrite Hopen.
    destruct (_ <? _); simpl; triv.
  - (* SetBroadcastOnPingTimeout_lock *)
    lockfree El. triv.
  - (* Close_lock *)
    lockfree El.
    destruct (closed (nc w)) eqn:Ec; simpl; [by specialize (Hlk eq_refl)|].
    triv.
  - (* Close_send *)
    rewrite Hnil. done.
  - done.
  - done.
  - (* pingTimeout_go *)
    destruct (listener_Ping (listener w)) as [e l'] eqn:Es; simpl; triv.
  - done.
  - done.
  - done.
Qed.

(** a critical section of the loop that only delivers *)
Lemma world_ok_delivered (w w' : World L) :
  world_ok w → lock (nc w) = false →
  nc w' = set_lock true (nc w) → wf w' →
  world_ok (mkWorld (set_lock false (nc w')) (heap w') (listener w')).
Proof.
  intros (Hnil & Hlk & Hint & _) El Hnc Hwf.
  unfold world_ok. simpl. rewrite Hnc. simpl.
  split; [done|]. split; [|split; [done|]].
  - intros Hc. rewrite <- El. auto.
  - eapply wf_same; [| |exact Hwf]; simpl; [done|]. by rewrite Hnc.
Qed.

Lemma grows_delivered (w w' : World L) :
  nc w' = set_lock true (nc w) → length (heap w') = length (heap w) →
  grows w (mkWorld (set_lock false (nc w')) (heap w') (listener w')).
Proof.
  intros Hnc Hlen. split; simpl; [lia|]. rewrite Hnc. simpl. auto.
Qed.

Lemma loop_step_ok sel l (w : World L) :
  world_ok w → loop_ok l →
  match mainDispatcherLoop_step sel l w with
  | Ret (l', started) w' =>
      world_ok w' ∧ loop_ok l' ∧ Forall (pc_ok w') started ∧ grows w w'
  | Panics _ w' => False
  | Blocks => True
  end.
Proof.
  intros Hw (Hns & Hnr & [Htcap Htopen] & Htimer).
  pose proof Hw as (Hnil & Hlk & [Hcap Hopen] & Hwf).
  pose proof (grows_same w w eq_refl eq_refl) as Hg.
  unfold mainDispatcherLoop_step, loop_ok.
  destruct (lpc l) eqn:Elpc; simpl; munfold; simpl; try done.
  - (* loop_top *)
    split; [done|]. split; [|by split]. simpl.
    do 2 (split; [done|]). split; [by destruct (pingInterval l)|].
    intros _. by destruct (pingInterval l).
  - (* loop_select *)
    destruct sel; simpl.
    + split; [done|]. split; [|by split]. simpl.
      do 3 (split; [done|]). intros _. by apply Htimer.
    + by rewrite Hnil.
    + unfold Chan.recv.
      destruct (Chan.buf (C (pingTimer l))) as [|v rest]; simpl.
      * by rewrite Htopen.
      * split; [done|]. split; [|by split]. simpl.
        do 3 (split; [done|]). intros _. by apply Htimer.
    + unfold Chan.recv.
      destruct (Chan.buf (newPingIntervalChannel (nc w))) as [|d rest]; simpl.
      * by rewrite Hopen.
      * split; [|split; [by simpl|split; [done|by apply grows_same]]].
        unfold world_ok. simpl. do 3 (split; [done|]).
        by apply wf_same with w.
  - (* loop_notify *)
    destruct (lock (nc w)) eqn:El; [done|]. simpl.
    set (w1 := mkWorld (set_lock true (nc w)) (heap w) (listener w)).
    assert (wf w1) as Hwf1 by (by apply wf_same with w).
    destruct n as [n|].
    + destruct (notify_wf (Channel n) (Some n) w1 Hwf1)
        as (w' & -> & Hnc & Hl & Hlen & Hwf').
      split; [by apply world_ok_delivered with w|].
      split; [by simpl|]. split; [done|]. by apply grows_delivered.
    + destruct (broadcast_spec w1 Hwf1)
        as (w' & -> & Hnc & Hl & Hlen & Hwf' & _).
      split; [by apply world_ok_delivered with w|].
      split; [by simpl|]. split; [done|]. by apply grows_delivered.
  - (* loop_pingTimeout_go *)
    split; [done|]. split; [|split; [|done]].
    + simpl. do 3 (split; [done|]). intros _. by apply Htimer.
    + by repeat constructor.
  - (* loop_pingTimeout_lock *)
    unfold pingTimeout_locked. munfold. simpl.
    destruct (lock (nc w)) eqn:El; [done|]. simpl.
    set (w1 := mkWorld (set_lock true (nc w)) (heap w) (listener w)).
    assert (wf w1) as Hwf1 by (by apply wf_same with w).
    destruct (broadcastOnPingTimeout (nc w)).
    + destruct (broadcast_spec w1 Hwf1)
        as (w' & -> & Hnc & Hl & Hlen & Hwf' & _).
      split; [by apply world_ok_delivered with w|].
      split; [by simpl|]. split; [done|]. by apply grows_delivered.
    + split; [by apply (world_ok_delivered w w1)|].
      split; [by simpl|]. split; [done|]. by apply (grows_delivered w w1).
Qed.

(** The runtime's send on the timer channel keeps it an open one-slot
    channel. *)
Lemma Timer_expire_spec t t' :
  Timer_expire t = Some t' →
  armed t = true ∧ t' = mkTimer false (offer () (C t)).
Proof.
  unfold Timer_expire, offer. destruct (armed t); [|done].
  intros [= <-]. done.
Qed.

Lemma Inv_NewNotifyCond (l : L) : Inv (NewNotifyCond l).
Proof.
  split; simpl.
  - unfold world_ok, wf, heap_ok, channels_ok. simpl.
    do 3 (split; [done|]). split; [|split]; intros *; by rewrite ?lookup_empty.
  - constructor.
  - by unfold loop_ok.
Qed.

Lemma pcs_grow (w w' : World L) gs :
  grows w w' → Forall (pc_ok w) gs → Forall (pc_ok w') gs.
Proof. intros Hg Hf. eapply Forall_impl; [done|]. intros p. by apply pc_ok_grows. Qed.

Lemma exec_Inv a (sys sys' : System L) :
  Inv sys → exec a sys = Some sys' → Inv sys'.
Proof.
  intros [Hw Hpcs Hloop] Hex. destruct a as [c|i|sel|ch|]; simpl in Hex.
  - (* a call starts *)
    simplify_eq. split; simpl; [done| |done].
    apply Forall_app. split; [done|]. apply Forall_singleton.
    by destruct c.
  - (* a goroutine moves *)
    destruct (goroutines sys !! i) as [p|] eqn:Ei; simpl in Hex; [|done].
    pose proof (Forall_lookup_1 _ _ _ _ Hpcs Ei) as Hp.
    pose proof (goroutine_step_ok p (world sys) Hw Hp) as Hstep.
    destruct (goroutine_step p (world sys)) as [p' w'|msg w'|]; simplify_eq.
    + destruct Hstep as (Hw' & Hp' & Hg). split; simpl; [done| |done].
      apply Forall_insert; [by eapply pcs_grow|done].
    + destruct Hstep as (Hw' & Hg). split; simpl; [done| |done].
      apply Forall_insert; [by eapply pcs_grow|done].
  - (* the loop moves *)
    pose proof (loop_step_ok sel (mainLoop sys) (world sys) Hw Hloop) as Hstep.
    destruct (mainDispatcherLoop_step sel (mainLoop sys) (world sys))
      as [[l' started] w'|msg w'|]; simplify_eq.
    + destruct Hstep as (Hw' & Hl' & Hst & Hg). split; simpl; [done| |done].
      apply Forall_app. split; [by eapply pcs_grow|done].
    + done.
  - (* a consumer receives *)
    destruct (heap (world sys) !! ch) as [c|] eqn:Ec; simpl in Hex; [|done].
    unfold Chan.recv in Hex.
    destruct (Chan.buf c) as [|v rest] eqn:Eb.
    + destruct (Chan.closed c); by simplify_eq.
    + simplify_eq. destruct Hw as (Hnil & Hlk & Hint & Hwf).
      set (c' := Chan.mk (Chan.cap c) rest (Chan.closed c)).
      split; simpl; [|eapply pcs_grow; [|done]; by eapply (grows_update _ _ ch c')|done].
      unfold world_ok. simpl. do 3 (split; [done|]).
      apply (wf_update (world sys) _ ch c c'); auto.
      destruct Hwf as (Hok & _). destruct (Hok _ _ Ec) as [_ Hlen].
      rewrite Eb in Hlen. simpl in *. lia.
  - (* the timer expires *)
    destruct (Timer_expire (pingTimer (mainLoop sys))) as [t|] eqn:Et;
      simpl in Hex; [|done].
    apply Timer_expire_spec in Et as [_ ->]. simplify_eq.
    destruct Hloop as (Hns & Hnr & [Htcap Htopen] & Htimer).
    split; simpl; [done|done|]. unfold loop_ok. simpl.
    do 2 (split; [done|]). by rewrite offer_cap, offer_closed.
Qed.

Lemma run_Inv acts (sys sys' : System L) :
  Inv sys → run acts sys = Some sys' → Inv sys'.
Proof.
  revert sys. induction acts as [|a acts IH]; intros sys HI Hr; simpl in Hr.
  - by simplify_eq.
  - destruct (exec a sys) as [sys1|] eqn:Ea; simpl in Hr; [|done].
    eapply IH; [|done]. by eapply exec_Inv.
Qed.

Lemma reachable_Inv (l : L) (sys : System L) : reachable l sys → Inv sys.
Proof. intros [acts Hr]. eapply run_Inv; [|done]. apply Inv_NewNotifyCond. Qed.

End Preservation.

(** ** The mutex between steps *)

Ltac crunch :=
  repeat first [ progress (munfold; simpl in * ) | case_match; simplify_eq/= ].

Section LockDiscipline.
Context {L : Type} `{!Listener L}.

(** What a step of the loop leaves alone, in a state of the invariant:
    the step does not panic, it stays out of the panic state, and apart
    from the condition channels it changes at most the interval channel
    (and that only when the select takes the interval). *)
Lemma loop_step_frame sel l0 (w : World L) :
  world_ok w → loop_ok l0 →
  match mainDispatcherLoop_step sel l0 w with
  | Ret (l', started) w' =>
      (∀ msg, lpc l' ≠ loop_panicked msg) ∧
      listener w' = listener w ∧
      (nc w' = nc w ∨
       (lpc l0 = loop_select ∧ sel = sel_newPingInterval ∧
        ∃ c', nc w' = set_newPingIntervalChannel c' (nc w)))
  | Panics _ _ => False
  | Blocks => True
  end.
Proof.
  intros Hw (Hns & Hnr & [Htcap Htopen] & Htimer).
  pose proof Hw as (Hnil & Hlk & [Hcap Hopen] & Hwf).
  unfold mainDispatcherLoop_step.
  destruct (lpc l0) eqn:Elpc; simpl; munfold; simpl; try done.
  - do 2 (split; [done|]). by left.
  - destruct sel; simpl.
    + do 2 (split; [done|]). by left.
    + by rewrite Hnil.
    + unfold Chan.recv.
      destruct (Chan.buf (C (pingTimer l0))) as [|v rest]; simpl.
      * by rewrite Htopen.
      * do 2 (split; [done|]). by left.
    + unfold Chan.recv.
      destruct (Chan.buf (newPingIntervalChannel (nc w))) as [|d rest]; simpl.
      * by rewrite Hopen.
      * do 2 (split; [done|]). right. eauto.
  - destruct (lock (nc w)) eqn:El; [done|]. simpl.
    set (w1 := mkWorld (set_lock true (nc w)) (heap w) (listener w)).
    assert (wf w1) as Hwf1 by (by apply wf_same with w).
    destruct n as [n|].
    + destruct (notify_wf (Channel n) (Some n) w1 Hwf1)
        as (w' & -> & Hnc & Hl & _).
      simpl. do 2 (split; [done|]). left. rewrite Hnc. simpl.
      by apply unlock_restores.
    + destruct (broadcast_spec w1 Hwf1) as (w' & -> & Hnc & Hl & _).
      simpl. do 2 (split; [done|]). left. rewrite Hnc. simpl.
      by apply unlock_restores.
  - do 2 (split; [done|]). by left.
  - unfold pingTimeout_locked. munfold. simpl.
    destruct (lock (nc w)) eqn:El; [done|]. simpl.
    set (w1 := mkWorld (set_lock true (nc w)) (heap w) (listener w)).
    assert (wf w1) as Hwf1 by (by apply wf_same with w).
    destruct (broadcastOnPingTimeout (nc w)).
    + destruct (broadcast_spec w1 Hwf1) as (w' & -> & Hnc & Hl & _).
      simpl. do 2 (split; [done|]). left. rewrite Hnc. simpl.
      by apply unlock_restores.
    + simpl. do 2 (split; [done|]). left. by apply unlock_restores.
Qed.

(** A goroutine of the API leaves the mutex as it found it, unless it is
    the Close call that sets [closed]. *)
Lemma goroutine_step_lock p (w : World L) :
  (lock (nc w) = true → closed (nc w) = true) →
  match goroutine_step p w with
  | Ret _ w' | Panics _ w' => lock (nc w') = true → closed (nc w') = true
  | Blocks => True
  end.
Proof.
  intros Hlk. destruct p; simpl; unfold removeChannel; crunch; try done; auto.
Qed.

(** The loop stays out of the panic state, and the mutex is held across
    steps only in a closed dispatcher. *)
Lemma run_discipline acts (sys sys' : System L) :
  Inv sys →
  (∀ msg, lpc (mainLoop sys) ≠ loop_panicked msg) →
  (lock (nc (world sys)) = true → closed (nc (world sys)) = true) →
  run acts sys = Some sys' →
  (∀ msg, lpc (mainLoop sys') ≠ loop_panicked msg) ∧
  (lock (nc (world sys')) = true → closed (nc (world sys')) = true).
Proof.
  revert sys. induction acts as [|a acts IH]; intros sys HI Hnp Hlk Hrun;
    simpl in Hrun.
  - by simplify_eq.
  - destruct (exec a sys) as [sys1|] eqn:Ea; simpl in Hrun; [|done].
    assert ((∀ msg, lpc (mainLoop sys1) ≠ loop_panicked msg) ∧
            (lock (nc (world sys1)) = true → closed (nc (world sys1)) = true))
      as [Hnp1 Hlk1].
    { destruct HI as [Hw _ Hloop].
      destruct a as [c|i|sel|ch|]; simpl in Ea.
      - by simplify_eq.
      - destruct (goroutines sys !! i) as [p|]; simpl in Ea; [|done].
        pose proof (goroutine_step_lock p (world sys) Hlk) as Hstep.
        destruct (goroutine_step p (world sys)); by simplify_eq.
      - pose proof (loop_step_frame sel (mainLoop sys) (world sys) Hw Hloop)
          as Hstep.
        destruct (mainDispatcherLoop_step sel (mainLoop sys) (world sys))
          as [[l' started] w'|msg w'|]; [|done|done].
        simplify_eq. simpl.
        destruct Hstep as (Hnp' & _ & [->|(_ & _ & c' & ->)]); by split.
      - destruct (heap (world sys) !! ch); simpl in Ea; [|done].
        destruct (Chan.recv _); by simplify_eq.
      - destruct (Timer_expire _); by simplify_eq/=. }
    apply (IH sys1); [by eapply exec_Inv|done|done|done].
Qed.

Lemma reachable_lock_closed (l : L) (sys : System L) :
  reachable l sys → lock (nc (world sys)) = closed (nc (world sys)).
Proof.
  intros Hr. pose proof (reachable_Inv _ _ Hr) as [(_ & Hcl & _) _ _].
  destruct Hr as [acts Hr].
  destruct (run_discipline acts _ _ (Inv_NewNotifyCond l)
              ltac:(done) ltac:(done) Hr) as [_ Hlk].
  destruct (lock (nc (world sys))), (closed (nc (world sys))); auto.
  - symmetry. by apply Hlk.
Qed.

Lemma run_app acts1 acts2 (sys : System L) :
  run (acts1 ++ acts2) sys = sys1 ← run acts1 sys; run acts2 sys1.
Proof.
  revert sys. induction acts1 as [|a acts1 IH]; intros sys; simpl; [done|].
  destruct (exec a sys); simpl; [apply IH|done].
Qed.

Lemma reachable_run (l : L) acts (sys sys' : System L) :
  reachable l sys → run acts sys = Some sys' → reachable l sys'.
Proof.
  intros [acts0 H0] Hr. exists (acts0 ++ acts). rewrite run_app, H0. done.
Qed.

Lemma goroutine_step_closed p (w : World L) :
  closed (nc w) = true →
  match goroutine_step p w with
  | Ret _ w' | Panics _ w' => closed (nc w') = true
  | Blocks => True
  end.
Proof.
  intros Hc. destruct p; simpl; unfold removeChannel; crunch; done.
Qed.

Lemma loop_step_locked sel l0 (w : World L) :
  lock (nc w) = true → closeChannel (nc w) = None →
  match mainDispatcherLoop_step sel l0 w with
  | Ret _ w' | Panics _ w' =>
      closed (nc w') = closed (nc w) ∧ lock (nc w') = true
  | Blocks => True
  end.
Proof.
  intros Hl Hnil. unfold mainDispatcherLoop_step, shutdown, pingTimeout_locked.
  destruct (lpc l0); try destruct sel; munfold; simpl;
    rewrite ?Hl, ?Hnil; simpl; try done;
    unfold Chan.recv; repeat case_match; simplify_eq/=; done.
Qed.

(** Once [closed] is set it stays set, and the invariant goes on holding. *)
Lemma run_closed acts (sys sys' : System L) :
  Inv sys → closed (nc (world sys)) = true →
  run acts sys = Some sys' →
  Inv sys' ∧ closed (nc (world sys')) = true.
Proof.
  revert sys. induction acts as [|a acts IH]; intros sys HI Hc Hrun;
    simpl in Hrun.
  - by simplify_eq.
  - destruct (exec a sys) as [sys1|] eqn:Ea; simpl in Hrun; [|done].
    apply (IH sys1); [by eapply exec_Inv| |done]. clear IH Hrun.
    destruct HI as [(Hnil & Hlk & _) _ _]. specialize (Hlk Hc).
    destruct a as [c|i|sel|ch|]; simpl in Ea.
    + by simplify_eq.
    + destruct (goroutines sys !! i) as [p|]; simpl in Ea; [|done].
      pose proof (goroutine_step_closed p (world sys) Hc) as Hstep.
      destruct (goroutine_step p (world sys)); by simplify_eq.
    + pose proof (loop_step_locked sel (mainLoop sys) (world sys) Hlk Hnil)
        as Hstep.
      destruct (mainDispatcherLoop_step sel (mainLoop sys) (world sys))
        as [[l' started] w'|msg w'|]; simplify_eq; simpl;
        destruct Hstep; congruence.
    + destruct (heap (world sys) !! ch); simpl in Ea; [|done].
      destruct (Chan.recv _); by simplify_eq.
    + destruct (Timer_expire _); by simplify_eq/=.
Qed.

(** A call that begins by taking the mutex cannot begin while it is
    held. *)
Lemma Listen_locked channel (w : World L) :
  lock (nc w) = true → Listen channel w = Blocks.
Proof.
  intros Hl. unfold Listen. rewrite run_call_step by done.
  simpl. munfold. simpl. by rewrite Hl.
Qed.

Lemma Unlisten_locked channel (w : World L) :
  lock (nc w) = true → Unlisten channel w = Blocks.
Proof.
  intros Hl. unfold Unlisten. rewrite run_call_step by done.
  simpl. munfold. simpl. by rewrite Hl.
Qed.

Lemma SetBroadcastOnPingTimeout_locked b (w : World L) :
  lock (nc w) = true → SetBroadcastOnPingTimeout b w = Blocks.
Proof.
  intros Hl. unfold SetBroadcastOnPingTimeout. rewrite run_call_step by done.
  simpl. munfold. simpl. by rewrite Hl.
Qed.

End LockDiscipline.

(** ** The registration API: claims C2, C3 and C8 *)

Section Registration.
Context {L : Type} `{!Listener L}.

(** C2.  The code does not do what the claim says for a closed
    dispatcher.  The check of line 128 is in the code: on a closed
    dispatcher [Listen] answers [errClosed] if it gets the mutex, and
    blocks at its [Lock] on line 126 if the mutex is held.  But in every
    state the program can reach:
    - once a Close call has set [closed] (it then sits at the send on the
      nil [closeChannel], holding the mutex), [closed] stays set, the
      mutex stays held and [Listen] blocks, now and after anything else
      the program does: it never answers [errClosed];
    - as long as [closed] is not set, a topic that is in the map gets
      [pq.ErrChannelAlreadyOpen] and nothing changes;
    - otherwise the first critical section makes a channel of capacity 1,
      empty and open, and puts it in the map under the topic, and only the
      next step calls the listener;
    - when the listener fails, its error comes back and the dispatcher is
      as it was before the call ([nc] is unchanged: the entry is gone
      again); the channel that was made stays behind, unreferenced;
    - when the listener succeeds the new channel comes back and stays in
      the map. *)
Theorem C2_Listen_blocks_after_Close (l : L) (sys : System L) (channel : string) :
  reachable l sys →
  (∀ w : World L, closed (nc w) = true →
     Listen channel w =
       if lock (nc w) then Blocks
       else Ret (Listen_ret None (Some errClosed)) w) ∧
  (closed (nc (world sys)) = true →
     ∀ acts sys', run acts sys = Some sys' →
       closed (nc (world sys')) = true ∧
       lock (nc (world sys')) = true ∧
       Listen channel (world sys') = Blocks) ∧
  (closed (nc (world sys)) = false →
     (∀ ch, channels (nc (world sys)) !! channel = Some ch →
        Listen channel (world sys) =
          Ret (Listen_ret None (Some ErrChannelAlreadyOpen)) (world sys)) ∧
     (channels (nc (world sys)) !! channel = None →
        goroutine_step (Listen_lock channel) (world sys) =
          Ret (Listen_listener channel (length (heap (world sys))))
            (mkWorld
               (set_channels
                  (<[channel := length (heap (world sys))]>
                     (channels (nc (world sys))))
                  (nc (world sys)))
               (heap (world sys) ++ [Chan.mk 1 [] false])
               (listener (world sys))) ∧
        (∀ e l', listener_Listen channel (listener (world sys)) = (Some e, l') →
           Listen channel (world sys) =
             Ret (Listen_ret None (Some e))
               (mkWorld (nc (world sys))
                  (heap (world sys) ++ [Chan.mk 1 [] false]) l')) ∧
        (∀ l', listener_Listen channel (listener (world sys)) = (None, l') →
           Listen channel (world sys) =
             Ret (Listen_ret (Some (length (heap (world sys)))) None)
               (mkWorld
                  (set_channels
                     (<[channel := length (heap (world sys))]>
                        (channels (nc (world sys))))
                     (nc (world sys)))
                  (heap (world sys) ++ [Chan.mk 1 [] false]) l')))).
Proof.
  intros Hr. split; [|split].
  - intros w Hc. destruct (lock (nc w)) eqn:El.
    + by apply Listen_locked.
    + by apply Listen_closed.
  - intros Hc acts sys' Hrun.
    destruct (run_closed acts sys sys' (reachable_Inv _ _ Hr) Hc Hrun)
      as [[(_ & Hlk & _) _ _] Hc'].
    do 2 (split; [by auto|]). apply Listen_locked. by apply Hlk.
  - intros Hc. pose proof (reachable_lock_closed l sys Hr) as Hl.
    rewrite Hc in Hl. split.
    + intros ch Hm. by eapply Listen_already_open.
    + intros Hm. split; [|split].
      * by apply Listen_lock_inserts.
      * intros e l' Hs. by apply Listen_listener_error.
      * intros l' Hs. by apply Listen_ok.
Qed.

(** C3.  The code does not do what the claim says for a closed
    dispatcher.  The check of line 164 is in the code: on a closed
    dispatcher [Unlisten] answers [errClosed] if it gets the mutex, and
    blocks at its [Lock] on line 162 if the mutex is held.  But in every
    state the program can reach:
    - once a Close call has set [closed], [closed] stays set, the mutex
      stays held and [Unlisten] blocks, now and after anything else the
      program does: it never answers [errClosed];
    - as long as [closed] is not set, a topic that is not in the map gets
      [pq.ErrChannelNotOpen] and nothing changes;
    - when the listener fails its error comes back, and the dispatcher and
      every channel are as before: the topic is still in the map, with its
      channel open;
    - when the listener succeeds the topic leaves the map and its channel,
      which was open, is closed; a second Unlisten of the topic then
      answers [pq.ErrChannelNotOpen] and closes nothing;
    - [removeChannel] finding the topic gone, or bound to another channel,
      panics; so does closing a channel that is closed already.  These are
      panics, not returned errors. *)
Theorem C3_Unlisten_blocks_after_Close (l : L) (sys : System L) (channel : string) :
  reachable l sys →
  (∀ w : World L, closed (nc w) = true →
     Unlisten channel w =
       if lock (nc w) then Blocks
       else Ret (Unlisten_ret (Some errClosed)) w) ∧
  (closed (nc (world sys)) = true →
     ∀ acts sys', run acts sys = Some sys' →
       closed (nc (world sys')) = true ∧
       lock (nc (world sys')) = true ∧
       Unlisten channel (world sys') = Blocks) ∧
  (closed (nc (world sys)) = false →
     (channels (nc (world sys)) !! channel = None →
        Unlisten channel (world sys) =
          Ret (Unlisten_ret (Some ErrChannelNotOpen)) (world sys)) ∧
     (∀ ch, channels (nc (world sys)) !! channel = Some ch →
        (∀ e l', listener_Unlisten channel (listener (world sys)) = (Some e, l') →
           Unlisten channel (world sys) =
             Ret (Unlisten_ret (Some e))
               (mkWorld (nc (world sys)) (heap (world sys)) l')) ∧
        (∀ l', listener_Unlisten channel (listener (world sys)) = (None, l') →
           ∃ c w',
             heap (world sys) !! ch = Some c ∧ Chan.closed c = false ∧
             Unlisten channel (world sys) = Ret (Unlisten_ret None) w' ∧
             w' = mkWorld
                    (set_channels (delete channel (channels (nc (world sys))))
                       (nc (world sys)))
                    (<[ch := Chan.mk (Chan.cap c) (Chan.buf c) true]>
                       (heap (world sys))) l' ∧
             Unlisten channel w' =
               Ret (Unlisten_ret (Some ErrChannelNotOpen)) w')) ∧
     (∀ ch, channels (nc (world sys)) !! channel ≠ Some ch →
        ∃ msg, removeChannel channel ch (world sys) = Panics msg (world sys)) ∧
     (∀ ch c, heap (world sys) !! ch = Some c → Chan.closed c = true →
        close_chan ch (world sys) =
          Panics "close of closed channel" (world sys))).
Proof.
  intros Hr. split; [|split].
  - intros w Hc. destruct (lock (nc w)) eqn:El.
    + by apply Unlisten_locked.
    + by apply Unlisten_closed.
  - intros Hc acts sys' Hrun.
    destruct (run_closed acts sys sys' (reachable_Inv _ _ Hr) Hc Hrun)
      as [[(_ & Hlk & _) _ _] Hc'].
    do 2 (split; [by auto|]). apply Unlisten_locked. by apply Hlk.
  - intros Hc. pose proof (reachable_lock_closed l sys Hr) as Hl.
    rewrite Hc in Hl.
    pose proof (reachable_Inv _ _ Hr) as [(_ & _ & _ & Hwf) _ _].
    split; [|split; [|split]].
    + intros Hm. by apply Unlisten_not_open.
    + intros ch Hm. split.
      * intros e l' Hs. by eapply Unlisten_listener_error.
      * intros l' Hs. destruct Hwf as (_ & Hv & _).
        destruct (Hv _ _ Hm) as (c & Hh & Ho).
        eexists c, _. split; [done|]. split; [done|].
        split; [by eapply Unlisten_ok|]. split; [done|].
        apply Unlisten_not_open; simpl; [done|done|].
        apply lookup_delete_eq.
    + intros ch Hne.
      destruct (channels (nc (world sys)) !! channel) as [oldch|] eqn:Hm.
      * eexists. eapply removeChannel_other; [done|done|]. congruence.
      * eexists. by apply removeChannel_absent.
    + intros ch c Hh Ho. unfold close_chan. rewrite Hh. unfold Chan.close.
      by rewrite Ho.
Qed.

(** C8.  On an open dispatcher whose mutex is free, with a listener that
    accepts the three calls: Listen, Unlisten, Listen of a topic that was
    not registered all succeed, and the second Listen returns a new
    channel (the first one is closed).  Listen of a topic that is
    registered answers [pq.ErrChannelAlreadyOpen] and changes nothing:
    the map, the topic's channel and what is pending in it are as they
    were. *)
Theorem C8_topic_reusable (T : string) (w : World L) :
  lock (nc w) = false → closed (nc w) = false →
  (channels (nc w) !! T = None →
   ∀ l1 l2 l3,
     listener_Listen T (listener w) = (None, l1) →
     listener_Unlisten T l1 = (None, l2) →
     listener_Listen T l2 = (None, l3) →
     (r1 ← Listen T; r2 ← Unlisten T; r3 ← Listen T; mret (r1, r2, r3)) w =
       Ret (Listen_ret (Some (length (heap w))) None,
            Unlisten_ret None,
            Listen_ret (Some (S (length (heap w)))) None)
         (mkWorld
            (set_channels (<[T := S (length (heap w))]> (channels (nc w))) (nc w))
            (heap w ++ [Chan.mk 1 [] true; Chan.mk 1 [] false]) l3)) ∧
  (∀ ch, channels (nc w) !! T = Some ch →
     Listen T w = Ret (Listen_ret None (Some ErrChannelAlreadyOpen)) w).
Proof.
  intros Hl Hc. split.
  - intros Hm l1 l2 l3 H1 H2 H3.
    unfold mbind at 1, M_bind at 1. rewrite (Listen_ok _ l1) by done.
    unfold mbind at 1, M_bind at 1.
    rewrite (Unlisten_ok _ (length (heap w)) (Chan.make 1) l2); simpl; try done.
    2: by rewrite lookup_insert_eq.
    2: by rewrite lookup_app_r, Nat.sub_diag.
    unfold mbind at 1, M_bind at 1.
    rewrite (Listen_ok _ l3); simpl; try done.
    2: by rewrite lookup_delete_eq.
    unfold mret, M_ret. simpl.
    rewrite delete_insert_id by done.
    rewrite length_insert, length_app, insert_app_r_alt, Nat.sub_diag by done.
    simpl. rewrite Nat.add_1_r, <- app_assoc. simpl.
    by destruct (nc w).
  - intros ch Hm. by eapply Listen_already_open.
Qed.

End Registration.

(** ** Delivery: claims C4 and C5 *)

Section DeliveryClaims.
Context {L : Type} `{!Listener L}.

(** On an open channel of capacity 1 an offer fills the empty slot and
    leaves a pending value alone. *)
Lemma offer_one_slot {A} (v : A) (c : Chan.t A) :
  Chan.cap c = 1 → Chan.closed c = false →
  offer v c = match Chan.buf c with
              | [] => Chan.mk 1 [v] false
              | _ => c
              end.
Proof.
  intros Hcap Ho. destruct (Chan.buf c) as [|x rest] eqn:Eb.
  - by apply offer_empty.
  - apply offer_pending. rewrite Hcap, Eb. simpl. lia.
Qed.

(** Notifications for a topic whose channel is full change nothing. *)
Lemma notify_all_absorbed T ch c ns (w : World L) :
  channels (nc w) !! T = Some ch → heap w !! ch = Some c →
  Chan.closed c = false → Chan.cap c ≤ length (Chan.buf c) →
  Forall (λ n, Channel n = T) ns →
  notify_all ns w = Ret () w.
Proof.
  intros Hm Hc Ho Hfull. induction 1 as [|n ns Hn _ IH]; [done|].
  simpl. unfold mbind, M_bind.
  rewrite Hn, (notify_registered _ _ _ _ _ Hm Hc Ho).
  rewrite offer_pending, list_insert_id, world_eta by done.
  apply IH.
Qed.

Lemma notify_all_unregistered T ns (w : World L) :
  channels (nc w) !! T = None →
  Forall (λ n, Channel n = T) ns →
  notify_all ns w = Ret () w.
Proof.
  intros Hm. induction 1 as [|n ns Hn _ IH]; [done|].
  simpl. unfold mbind, M_bind. rewrite Hn, notify_unregistered by done.
  apply IH.
Qed.

Lemma notify_all_coalesces n ns (w : World L) :
  wf w → Forall (λ n', Channel n' = Channel n) ns →
  notify_all (n :: ns) w = notify_all [n] w.
Proof.
  intros (Hok & Hv & Hi) Hns. simpl. unfold mbind, M_bind.
  destruct (channels (nc w) !! Channel n) as [ch|] eqn:Hm.
  - destruct (Hv _ _ Hm) as (c & Hc & Ho). destruct (Hok _ _ Hc) as [Hcap Hlen].
    rewrite (notify_registered _ _ _ _ _ Hm Hc Ho).
    simpl.
    apply (notify_all_absorbed (Channel n) ch (offer (Some n) c)); simpl; try done.
    + apply list_lookup_insert_eq. by eapply lookup_lt_Some.
    + by rewrite offer_closed.
    + rewrite offer_cap.
      destruct (offer_cases (Some n) c) as [[-> [?|?]]|[-> _]];
        [congruence|done|].
      simpl. rewrite length_app. simpl. lia.
  - rewrite notify_unregistered by done.
    by eapply notify_all_unregistered.
Qed.

(** C4.  In every state the program can reach:
    - each condition channel has capacity 1 and holds at most one value;
    - [notify] for a notification never blocks: when the topic is not
      registered nothing changes; when it is, the notification goes into
      the topic's channel if that is empty and is dropped if a value is
      pending there;
    - handling the notifications [n :: ns], all for one topic, with no
      receive in between leaves the same state as handling [n] alone. *)
Theorem C4_at_most_one_pending (l : L) (sys : System L) :
  reachable l sys →
  (∀ ch c, heap (world sys) !! ch = Some c →
     Chan.cap c = 1 ∧ length (Chan.buf c) ≤ 1) ∧
  (∀ n : Notification,
     match channels (nc (world sys)) !! Channel n with
     | None => notify (Channel n) (Some n) (world sys) = Ret () (world sys)
     | Some ch =>
         ∃ c, heap (world sys) !! ch = Some c ∧
              notify (Channel n) (Some n) (world sys) =
                Ret () (mkWorld (nc (world sys))
                          (<[ch := match Chan.buf c with
                                   | [] => Chan.mk 1 [Some n] false
                                   | _ => c
                                   end]> (heap (world sys)))
                          (listener (world sys)))
     end) ∧
  (∀ (n : Notification) ns,
     Forall (λ n', Channel n' = Channel n) ns →
     notify_all (n :: ns) (world sys) = notify_all [n] (world sys)).
Proof.
  intros Hr. destruct (reachable_Inv _ _ Hr) as [(_ & _ & _ & Hwf) _ _].
  pose proof Hwf as (Hok & Hv & Hi).
  split; [done|]. split.
  - intros n. destruct (channels (nc (world sys)) !! Channel n) as [ch|] eqn:Hm.
    + destruct (Hv _ _ Hm) as (c & Hc & Ho). destruct (Hok _ _ Hc) as [Hcap _].
      exists c. split; [done|].
      rewrite (notify_registered _ _ _ _ _ Hm Hc Ho).
      by rewrite offer_one_slot.
    + by apply notify_unregistered.
  - intros n ns Hns. by apply notify_all_coalesces.
Qed.

(** What the loop does with a value it has received, lines 287-293. *)
Lemma loop_notify_step sel l0 m (w : World L) :
  lpc l0 = loop_notify m → lock (nc w) = false →
  mainDispatcherLoop_step sel l0 w =
  match (match m with
         | None => broadcast
         | Some n => notify (Channel n) m
         end) (mkWorld (set_lock true (nc w)) (heap w) (listener w)) with
  | Ret _ w' =>
      Ret (mkLoop (pingTimer l0) (pingInterval l0) loop_top, [])
        (mkWorld (set_lock false (nc w')) (heap w') (listener w'))
  | Panics msg w' => Panics msg w'
  | Blocks => Blocks
  end.
Proof.
  intros Hl El. unfold mainDispatcherLoop_step. rewrite Hl.
  munfold. simpl. rewrite El. by destruct m.
Qed.


End DeliveryClaims.

(** ** Shutdown: claims C1 and C6 *)

Section Shutdown.
Context {L : Type} `{!Listener L}.

(** No Close call is ever past its send on line 230. *)
Lemma reachable_not_past_send (l : L) (sys : System L) i p :
  reachable l sys → goroutines sys !! i = Some p → past_send p = false.
Proof.
  intros Hr Hi. destruct (reachable_Inv _ _ Hr) as [_ Hpcs _].
  by destruct (Forall_lookup_1 _ _ _ _ Hpcs Hi).
Qed.

(** C1.  The code does not do what the claim says.  [NewNotifyCond]
    leaves [closeChannel] nil, so in every state the program can reach:
    - no Close call has returned, whatever the consumers do;
    - the loop has neither received from [closeChannel] nor run
      [shutdown];
    - every channel in the map is still open, also after Close has
      begun: a receive on an empty one blocks.
    A goroutine in Close sits at the send on line 230, where it cannot
    move, and the loop cannot take the close case of its select. *)
Theorem C1_Close_never_returns (l : L) (sys : System L) :
  reachable l sys →
  (∀ i e, goroutines sys !! i ≠ Some (Returned (Close_ret e))) ∧
  (lpc (mainLoop sys) ≠ loop_shutdown ∧ lpc (mainLoop sys) ≠ loop_returned) ∧
  (∀ T ch, channels (nc (world sys)) !! T = Some ch →
     ∃ c, heap (world sys) !! ch = Some c ∧ Chan.closed c = false ∧
          (Chan.buf c = [] → exec (act_consume ch) sys = None)) ∧
  (∀ i, goroutines sys !! i = Some Close_send → exec (act_go i) sys = None) ∧
  (lpc (mainLoop sys) = loop_select → exec (act_loop sel_closeChannel) sys = None).
Proof.
  intros Hr. pose proof (reachable_Inv _ _ Hr) as [(Hnil & _ & _ & Hwf) Hpcs Hloop].
  split; [|split; [|split; [|split]]].
  - intros i e Hi. by pose proof (reachable_not_past_send _ _ _ _ Hr Hi).
  - by destruct Hloop as (? & ? & _).
  - intros T ch Hm. destruct Hwf as (_ & Hv & _).
    destruct (Hv _ _ Hm) as (c & Hc & Ho). exists c. do 2 (split; [done|]).
    intros Hb. simpl. rewrite Hc. simpl. unfold Chan.recv. by rewrite Hb, Ho.
  - intros i Hi. simpl. rewrite Hi. simpl. munfold. simpl. by rewrite Hnil.
  - intros Hs. simpl. unfold mainDispatcherLoop_step. rewrite Hs.
    munfold. simpl. by rewrite Hnil.
Qed.

(** C6.  The code does not do what the claim says.  Once a Close call has
    set [closed], in every state the program can reach from there:
    - the mutex is held (by that call, stuck at the send on the nil
      [closeChannel]) and [closeChannel] is nil: the loop is not
      signalled;
    - a second Close call cannot take the mutex: it does not answer
      [errClosed], it blocks on line 224;
    - no Close call waits on the WaitGroup, calls the listener's Close or
      returns: the source is not closed by Close. *)
Theorem C6_Close_blocks_holding_lock (l : L) (sys : System L) :
  reachable l sys → closed (nc (world sys)) = true →
  ∀ acts sys', run acts sys = Some sys' →
    closed (nc (world sys')) = true ∧
    lock (nc (world sys')) = true ∧
    closeChannel (nc (world sys')) = None ∧
    (∀ i, goroutines sys' !! i = Some Close_lock → exec (act_go i) sys' = None) ∧
    (∀ i p, goroutines sys' !! i = Some p →
       p ≠ Close_wait ∧ p ≠ Close_listener ∧ ∀ e, p ≠ Returned (Close_ret e)).
Proof.
  intros Hr Hc acts sys' Hrun.
  destruct (run_closed acts sys sys' (reachable_Inv _ _ Hr) Hc Hrun)
    as [[(Hnil & Hlk & _) Hpcs _] Hc'].
  split; [done|]. split; [by apply Hlk|]. split; [done|]. split.
  - intros i Hi. simpl. rewrite Hi. simpl. munfold. simpl.
    by rewrite (Hlk Hc').
  - intros i p Hi. destruct (Forall_lookup_1 _ _ _ _ Hpcs Hi) as [Hp _].
    by destruct p as [| | | | | | | | | | | | | | |[]| |].
Qed.

End Shutdown.

(** ** Keepalive: claim C7 *)

Section Keepalive.
Context {L : Type} `{!Listener L}.

(** What [pingTimeout] does once it has started the probe, lines 213-217. *)
Lemma pingTimeout_locked_spec (w : World L) :
  wf w → lock (nc w) = false →
  ∃ w', pingTimeout_locked w = Ret () w' ∧
        nc w' = nc w ∧ listener w' = listener w ∧
        length (heap w') = length (heap w) ∧ wf w' ∧
        if broadcastOnPingTimeout (nc w) then
          (∀ T ch, channels (nc w) !! T = Some ch →
             ∃ c, heap w !! ch = Some c ∧
                  heap w' !! ch = Some (match Chan.buf c with
                                        | [] => Chan.mk 1 [None] false
                                        | _ => c
                                        end)) ∧
          (∀ ch, ¬ registered w ch → heap w' !! ch = heap w !! ch)
        else heap w' = heap w.
Proof.
  intros Hwf El. unfold pingTimeout_locked. munfold. simpl. rewrite El. simpl.
  set (w1 := mkWorld (set_lock true (nc w)) (heap w) (listener w)).
  assert (wf w1) as Hwf1 by (by apply wf_same with w).
  destruct (broadcastOnPingTimeout (nc w)) eqn:Eb.
  - destruct (broadcast_spec w1 Hwf1)
      as (w' & -> & Hnc & Hls & Hlen & Hwf' & Hreg & Hun).
    eexists. split; [done|]. simpl. rewrite Hnc. simpl.
    split; [by apply unlock_restores|]. do 2 (split; [done|]).
    split; [eapply wf_same; [| |exact Hwf']; simpl; [done|by rewrite Hnc]|].
    split; [|done].
    intros T ch Hm. destruct Hwf as (Hok & Hv & _).
    destruct (Hv _ _ Hm) as (c & Hc & Ho). destruct (Hok _ _ Hc) as [Hcap _].
    exists c. split; [done|].
    rewrite Hreg by (by exists T). simpl. rewrite Hc. simpl.
    by rewrite offer_one_slot.
  - eexists. split; [done|]. simpl.
    split; [by apply unlock_restores|]. do 2 (split; [done|]).
    split; [by apply wf_same with w|done].
Qed.

(** A step of an API goroutine other than SetPingInterval leaves the
    interval channel alone; no step starts a probe, and the one goroutine
    that is a probe ends without a panic. *)
Lemma goroutine_step_no_interval p (w : World L) :
  is_SetPingInterval p = false →
  match goroutine_step p w with
  | Ret p' w' =>
      newPingIntervalChannel (nc w') = newPingIntervalChannel (nc w) ∧
      is_SetPingInterval p' = false ∧ is_probe p' = is_probe p
  | Panics _ w' =>
      newPingIntervalChannel (nc w') = newPingIntervalChannel (nc w) ∧
      is_probe p = false
  | Blocks => True
  end.
Proof.
  intros Hs. destruct p; simpl; unfold removeChannel; crunch; done.
Qed.

Lemma probes_insert (gs : list pc) i p p' :
  gs !! i = Some p → is_probe p' = is_probe p →
  length (filter (λ p, is_probe p = true) (<[i := p']> gs)) =
  length (filter (λ p, is_probe p = true) gs).
Proof.
  revert i. induction gs as [|g gs IH]; intros i Hi Hp; [done|].
  destruct i as [|i]; simpl in *.
  - simplify_eq. rewrite !filter_cons, Hp. by destruct (decide _).
  - rewrite !filter_cons. destruct (decide _); simpl; by rewrite (IH i).
Qed.

Lemma probes_none (gs : list pc) :
  length (filter (λ p, is_probe p = true) gs) = 0 →
  Forall (λ p, is_probe p = false) gs.
Proof.
  induction gs as [|g gs IH]; [done|]. rewrite filter_cons.
  destruct (decide (is_probe g = true)) as [Hg|Hg]; simpl; [done|].
  intros Hlen. constructor; [by destruct (is_probe g)|by apply IH].
Qed.

Lemma ticks_left_offer t :
  ticks_left (mkTimer false (offer () (C t))) ≤ S (length (Chan.buf (C t))).
Proof.
  unfold ticks_left. simpl.
  destruct (offer_cases () (C t)) as [[-> _]|[-> _]]; simpl;
    rewrite ?length_app; simpl; lia.
Qed.

Lemma exec_no_interval n a (sys sys' : System L) :
  Inv sys → no_interval n sys → sets_no_interval a = true →
  exec a sys = Some sys' → no_interval n sys'.
Proof.
  intros [Hw Hpcs Hloop] (Hi & Hb & Hgs & Hn & Hpl) Ha Hex.
  pose proof Hw as (Hnil & Hlk & [Hcap Hopen] & Hwf).
  unfold probes in *.
  destruct a as [c|i|sel|ch|]; simpl in Hex.
  - simplify_eq. unfold no_interval, probes. simpl.
    rewrite filter_app, length_app.
    assert (filter (λ p, is_probe p = true) [entry c] = []) as ->
      by (by destruct c).
    simpl. rewrite Nat.add_0_r. do 2 (split; [done|]).
    split; [|done]. apply Forall_app. split; [done|].
    apply Forall_singleton. by destruct c.
  - destruct (goroutines sys !! i) as [p|] eqn:Ei; simpl in Hex; [|done].
    pose proof (Forall_lookup_1 _ _ _ _ Hgs Ei) as Hs. simpl in Hs.
    pose proof (goroutine_step_no_interval p (world sys) Hs) as Hstep.
    destruct (goroutine_step p (world sys)) as [p' w'|msg w'|]; simplify_eq;
      unfold no_interval, probes; simpl.
    + destruct Hstep as (-> & ? & ?). do 2 (split; [done|]).
      split; [by apply Forall_insert|].
      by rewrite (probes_insert _ _ p).
    + destruct Hstep as [-> Hp]. do 2 (split; [done|]).
      split; [by apply Forall_insert|].
      by rewrite (probes_insert _ _ p).
  - pose proof Hloop as (Hns & _ & [Htcap Htopen] & Htimer).
    unfold mainDispatcherLoop_step in Hex.
    destruct (lpc (mainLoop sys)) eqn:Elpc; try done.
    + (* loop_top *)
      rewrite Hi in Hex. simpl in Hex. simplify_eq.
      unfold no_interval, probes, ticks_left in *. simpl.
      rewrite app_nil_r. do 3 (split; [done|]). split; [|done].
      destruct (armed (pingTimer (mainLoop sys))); simpl in *; lia.
    + (* loop_select *)
      destruct sel; munfold; simpl in Hex.
      * simplify_eq. unfold no_interval, probes. simpl. by rewrite app_nil_r.
      * by rewrite Hnil in Hex.
      * unfold Chan.recv in Hex.
        destruct (Chan.buf (C (pingTimer (mainLoop sys)))) as [|v rest] eqn:Et.
        { by rewrite Htopen in Hex. }
        simplify_eq. unfold no_interval, probes, ticks_left in *. simpl.
        rewrite app_nil_r. do 3 (split; [done|]). split; [|done].
        rewrite Et in Hn. simpl in Hn. lia.
      * unfold Chan.recv in Hex. by rewrite Hb, Hopen in Hex.
    + (* loop_notify *)
      munfold. simpl in Hex.
      destruct (lock (nc (world sys))) eqn:El; [done|]. simpl in Hex.
      set (w1 := mkWorld (set_lock true (nc (world sys))) (heap (world sys))
                   (listener (world sys))) in *.
      assert (wf w1) as Hwf1 by (by apply wf_same with (world sys)).
      assert (∃ w', match n0 with
                    | Some n' => notify (Channel n') n0
                    | None => broadcast
                    end w1 = Ret () w' ∧ nc w' = nc w1) as (w' & Hr & Hnc).
      { destruct n0 as [n0|].
        - destruct (notify_wf (Channel n0) (Some n0) w1 Hwf1) as (w' & ? & ? & _).
          by exists w'.
        - destruct (broadcast_spec w1 Hwf1) as (w' & ? & ? & _). by exists w'. }
      rewrite Hr in Hex. simplify_eq. unfold no_interval, probes. simpl.
      rewrite Hnc, app_nil_r. simpl. done.
    + (* loop_pingTimeout_go *)
      simpl in Hex. simplify_eq. unfold no_interval, probes. simpl.
      rewrite filter_app, length_app. simpl.
      do 2 (split; [done|]).
      split; [apply Forall_app; split; [done|by apply Forall_singleton]|].
      split; [lia|]. intros _. lia.
    + (* loop_pingTimeout_lock *)
      destruct (lock (nc (world sys))) eqn:El.
      { unfold pingTimeout_locked in Hex. munfold. simpl in Hex.
        by rewrite El in Hex. }
      destruct (pingTimeout_locked_spec (world sys) Hwf El)
        as (w' & Hp & Hnc & _).
      unfold mbind, M_bind in Hex. rewrite Hp in Hex. simpl in Hex.
      simplify_eq. unfold no_interval, probes. simpl.
      rewrite Hnc, app_nil_r. do 3 (split; [done|]). by split.
  - destruct (heap (world sys) !! ch); simpl in Hex; [|done].
    destruct (Chan.recv _); by simplify_eq.
  - destruct (Timer_expire (pingTimer (mainLoop sys))) as [t|] eqn:Et;
      simpl in Hex; [|done].
    apply Timer_expire_spec in Et as [Ha' ->]. simplify_eq.
    unfold no_interval, probes. simpl. do 3 (split; [done|]). split; [|done].
    pose proof (ticks_left_offer (pingTimer (mainLoop sys))) as Hle.
    unfold ticks_left in Hn. rewrite Ha' in Hn. lia.
Qed.

Lemma run_no_interval n acts (sys sys' : System L) :
  Inv sys → no_interval n sys → forallb sets_no_interval acts = true →
  run acts sys = Some sys' → no_interval n sys'.
Proof.
  revert sys. induction acts as [|a acts IH]; intros sys HI Hn Ha Hr;
    simpl in *.
  - by simplify_eq.
  - apply andb_true_iff in Ha as [Ha Hacts].
    destruct (exec a sys) as [sys1|] eqn:Ea; simpl in Hr; [|done].
    apply (IH sys1); [by eapply exec_Inv|by eapply exec_no_interval|done|done].
Qed.

(** C7.  The code does not do what the claim says for a dispatcher
    without an interval.  What the loop does with its timer, in every
    state the program can reach:
    - at the top of an iteration it arms the timer ([Reset]) when an
      interval is set and stops it ([Stop]) when none is, and in neither
      case does it look into the timer's channel; past the top of an
      iteration the timer is armed only if an interval is set;
    - in the select the timer case can be taken exactly when a tick waits
      in the timer's channel;
    - having received a tick, the loop starts the probe as a goroutine of
      its own, in a step that is always enabled and changes nothing else
      (the loop does not call the listener and does not wait);
    - that goroutine calls the listener's Ping and ends;
    - the loop then takes the mutex and, when [broadcastOnPingTimeout] is
      set at that moment, offers the nil marker to every channel in the
      map; when it is not set, no channel changes.
    The defect: [time.NewTimer(1)] on line 276 hands the loop an armed
    timer.  When it expires before the loop reaches the [Stop] on line
    282, its tick stays in the channel, the select receives it and the
    listener is pinged although no interval was ever set (the run
    [acts_stale_tick]).  As long as the application has not called
    SetPingInterval that is the only tick there is: at most one probe is
    started, and none at all when the loop reaches its first [Stop]
    before the timer expires. *)
Theorem C7_probe_without_interval (l : L) :
  (∀ sys sel, reachable l sys →
     (lpc (mainLoop sys) = loop_top →
        exec (act_loop sel) sys =
          Some (mkSystem (world sys)
                  (mkLoop
                     (mkTimer (bool_decide (is_Some (pingInterval (mainLoop sys))))
                        (C (pingTimer (mainLoop sys))))
                     (pingInterval (mainLoop sys)) loop_select)
                  (goroutines sys))) ∧
     (lpc (mainLoop sys) ≠ loop_top → armed (pingTimer (mainLoop sys)) = true →
        is_Some (pingInterval (mainLoop sys))) ∧
     (lpc (mainLoop sys) = loop_select →
        exec (act_loop sel_pingTimer) sys =
          match Chan.buf (C (pingTimer (mainLoop sys))) with
          | [] => None
          | _ :: rest =>
              Some (mkSystem (world sys)
                      (mkLoop
                         (mkTimer (armed (pingTimer (mainLoop sys)))
                            (Chan.mk 1 rest false))
                         (pingInterval (mainLoop sys)) loop_pingTimeout_go)
                      (goroutines sys))
          end) ∧
     (lpc (mainLoop sys) = loop_pingTimeout_go →
        exec (act_loop sel) sys =
          Some (mkSystem (world sys)
                  (mkLoop (pingTimer (mainLoop sys)) (pingInterval (mainLoop sys))
                     loop_pingTimeout_lock)
                  (goroutines sys ++ [pingTimeout_go]))) ∧
     (∀ i, goroutines sys !! i = Some pingTimeout_go →
        exec (act_go i) sys =
          Some (mkSystem
                  (mkWorld (nc (world sys)) (heap (world sys))
                     (listener_Ping (listener (world sys))).2)
                  (mainLoop sys)
                  (<[i := Finished]> (goroutines sys)))) ∧
     (lpc (mainLoop sys) = loop_pingTimeout_lock →
      lock (nc (world sys)) = false →
        ∃ w',
          exec (act_loop sel) sys =
            Some (mkSystem w'
                    (mkLoop (pingTimer (mainLoop sys)) (pingInterval (mainLoop sys))
                       loop_top)
                    (goroutines sys)) ∧
          nc w' = nc (world sys) ∧ listener w' = listener (world sys) ∧
          if broadcastOnPingTimeout (nc (world sys)) then
            (∀ T ch, channels (nc (world sys)) !! T = Some ch →
               ∃ c, heap (world sys) !! ch = Some c ∧
                    heap w' !! ch = Some (match Chan.buf c with
                                          | [] => Chan.mk 1 [None] false
                                          | _ => c
                                          end)) ∧
            (∀ ch, ¬ registered (world sys) ch →
               heap w' !! ch = heap (world sys) !! ch)
          else heap w' = heap (world sys))) ∧
  run acts_stale_tick (NewNotifyCond l) =
    Some (mkSystem
            (mkWorld (nc (world (NewNotifyCond l))) [] (listener_Ping l).2)
            (mkLoop (mkTimer false (Chan.mk 1 [] false)) None loop_pingTimeout_lock)
            [Finished]) ∧
  (∀ acts sys,
     forallb sets_no_interval acts = true →
     run acts (NewNotifyCond l) = Some sys →
     pingInterval (mainLoop sys) = None ∧
     ticks_left (pingTimer (mainLoop sys)) + probes sys ≤ 1) ∧
  (∀ sel acts sys,
     forallb sets_no_interval acts = true →
     run (act_loop sel :: acts) (NewNotifyCond l) = Some sys →
     pingInterval (mainLoop sys) = None ∧
     ticks_left (pingTimer (mainLoop sys)) = 0 ∧
     lpc (mainLoop sys) ≠ loop_pingTimeout_go ∧
     lpc (mainLoop sys) ≠ loop_pingTimeout_lock ∧
     Forall (λ p, is_probe p = false) (goroutines sys)).
Proof.
  split; [|split; [|split]].
  - intros sys sel Hr.
    destruct (reachable_Inv _ _ Hr)
      as [(_ & _ & _ & Hwf) _ (_ & _ & [Htcap Htopen] & Htimer)].
    split; [|split; [done|split; [|split; [|split]]]].
    + intros Hl. simpl. unfold mainDispatcherLoop_step. rewrite Hl. simpl.
      rewrite app_nil_r. by destruct (pingInterval (mainLoop sys)).
    + intros Hl. simpl. unfold mainDispatcherLoop_step. rewrite Hl.
      unfold Chan.recv.
      destruct (Chan.buf (C (pingTimer (mainLoop sys)))) as [|v rest]; simpl.
      * by rewrite Htopen.
      * by rewrite app_nil_r, Htcap, Htopen.
    + intros Hl. simpl. unfold mainDispatcherLoop_step. by rewrite Hl.
    + intros i Hi. unfold exec. rewrite Hi. simpl. munfold. simpl.
      by destruct (listener_Ping (listener (world sys))).
    + intros Hl El.
      destruct (pingTimeout_locked_spec (world sys) Hwf El)
        as (w' & Hp & Hnc & Hls & _ & _ & Hb).
      exists w'. split; [|done].
      simpl. unfold mainDispatcherLoop_step. rewrite Hl.
      unfold mbind, M_bind. rewrite Hp. simpl. by rewrite app_nil_r.
  - unfold acts_stale_tick. simpl. munfold. simpl.
    by destruct (listener_Ping l).
  - intros acts sys Ha Hr.
    assert (no_interval 1 sys) as (Hi & _ & _ & Hn & _); [|done].
    eapply run_no_interval; [apply Inv_NewNotifyCond| |done|done].
    unfold no_interval, probes, ticks_left. simpl.
    do 3 (split; [done|]). split; [lia|done].
  - intros sel acts sys Ha Hr.
    set (sys1 := mkSystem (world (NewNotifyCond l))
                   (mkLoop (Timer_Stop (NewTimer 1%Z)) None loop_select) []).
    assert (exec (act_loop sel) (NewNotifyCond l) = Some sys1) as Hex by done.
    simpl in Hr. change (run acts sys1 = Some sys) in Hr.
    assert (no_interval 0 sys) as (Hi & _ & _ & Hn & Hpl).
    { apply (run_no_interval 0 acts sys1); [| |done|done].
      - by apply (exec_Inv (act_loop sel) (NewNotifyCond l));
          [apply Inv_NewNotifyCond|].
      - unfold no_interval, probes, ticks_left. simpl.
        do 3 (split; [done|]). split; [lia|done]. }
    unfold probes in *. split; [done|]. split; [lia|].
    split; [|split].
    + intros Hl. rewrite Hl in Hn. lia.
    + intros Hl. specialize (Hpl Hl). lia.
    + apply probes_none. lia.
Qed.

End Keepalive.

(** ** The setters and the probe: claims C9 and C10 *)

Section Setters.
Context {L : Type} `{!Listener L}.

(** With the slot of the interval channel taken, no goroutine changes that
    channel. *)
Lemma goroutine_step_slot_taken p d0 (w : World L) :
  newPingIntervalChannel (nc w) = Chan.mk 1 [d0] false →
  match goroutine_step p w with
  | Ret _ w' | Panics _ w' =>
      newPingIntervalChannel (nc w') = Chan.mk 1 [d0] false
  | Blocks => True
  end.
Proof.
  intros Hc. destruct p; simpl; unfold removeChannel; crunch; try done.
  all: rewrite Hc in *; by simplify_eq/=.
Qed.

(** The loop at the Lock of [pingTimeout] cannot move while the mutex is
    held. *)
Lemma loop_waits_for_lock sel l0 (w : World L) :
  lpc l0 = loop_pingTimeout_lock → lock (nc w) = true →
  mainDispatcherLoop_step sel l0 w = Blocks.
Proof.
  intros Hl El. unfold mainDispatcherLoop_step, pingTimeout_locked.
  rewrite Hl. munfold. simpl. by rewrite El.
Qed.

Lemma exec_keeps_sender_blocked a (sys sys' : System L) i d d0 :
  lock (nc (world sys)) = true →
  lpc (mainLoop sys) = loop_pingTimeout_lock →
  newPingIntervalChannel (nc (world sys)) = Chan.mk 1 [d0] false →
  goroutines sys !! i = Some (SetPingInterval_send d) →
  exec a sys = Some sys' →
  lpc (mainLoop sys') = loop_pingTimeout_lock ∧
  newPingIntervalChannel (nc (world sys')) = Chan.mk 1 [d0] false ∧
  goroutines sys' !! i = Some (SetPingInterval_send d).
Proof.
  intros El Hl Hc Hi Hex. destruct a as [c|j|sel|ch|]; simpl in Hex.
  - simplify_eq. simpl. do 2 (split; [done|]). by apply lookup_app_l_Some.
  - destruct (goroutines sys !! j) as [p|] eqn:Ej; simpl in Hex; [|done].
    pose proof (goroutine_step_slot_taken p d0 (world sys) Hc) as Hstep.
    destruct (decide (j = i)) as [->|Hne].
    + assert (p = SetPingInterval_send d) as -> by congruence.
      simpl in Hex. munfold. simpl in Hex. by rewrite Hc in Hex.
    + destruct (goroutine_step p (world sys)) as [p' w'|msg w'|];
        simplify_eq; simpl; (do 2 (split; [done|]));
        by rewrite list_lookup_insert_ne.
  - by rewrite loop_waits_for_lock in Hex.
  - destruct (heap (world sys) !! ch); simpl in Hex; [|done].
    destruct (Chan.recv _); by simplify_eq.
  - destruct (Timer_expire _); by simplify_eq/=.
Qed.

Lemma run_keeps_sender_blocked acts (sys sys' : System L) i d d0 :
  Inv sys → closed (nc (world sys)) = true →
  lpc (mainLoop sys) = loop_pingTimeout_lock →
  newPingIntervalChannel (nc (world sys)) = Chan.mk 1 [d0] false →
  goroutines sys !! i = Some (SetPingInterval_send d) →
  run acts sys = Some sys' →
  lpc (mainLoop sys') = loop_pingTimeout_lock ∧
  newPingIntervalChannel (nc (world sys')) = Chan.mk 1 [d0] false ∧
  goroutines sys' !! i = Some (SetPingInterval_send d).
Proof.
  revert sys. induction acts as [|a acts IH]; intros sys HI Hc Hl Hs Hi Hrun;
    simpl in Hrun.
  - by simplify_eq.
  - destruct (exec a sys) as [sys1|] eqn:Ea; simpl in Hrun; [|done].
    destruct (run_closed [a] sys sys1 HI Hc) as [HI1 Hc1].
    { simpl. by rewrite Ea. }
    pose proof HI as [(_ & Hlk & _) _ _].
    destruct (exec_keeps_sender_blocked _ _ _ _ _ _ (Hlk Hc) Hl Hs Hi Ea)
      as (? & ? & ?).
    by apply (IH sys1).
Qed.

(** C9.  The code does not do what the claim says once Close has begun.
    Neither setter reads [closed] or has an error to return, and in every
    state the program can reach:
    - SetPingInterval, which takes no mutex, puts the interval into the
      slot of the interval channel and returns when the slot is free,
      closed dispatcher or not, and blocks while the slot is taken;
    - SetBroadcastOnPingTimeout looks at the mutex only: with the mutex
      free it sets the flag and returns, with the mutex held it blocks at
      its [Lock] on line 201;
    - the mutex is held exactly when [closed] is set: once a Close call
      has set [closed] (and sits at the send on the nil [closeChannel],
      holding the mutex) SetBroadcastOnPingTimeout blocks, now and after
      anything else the program does: it is not accepted after Close has
      begun;
    - whatever the setters return is their plain return;
    - the loop never leaves [mainDispatcherLoop]: it neither returns nor
      panics, so the state "the loop has exited" does not arise;
    - what does arise is a loop that stands still: after Close has
      begun, a loop that has received a tick waits for the mutex on line
      213 for good, nobody empties the slot any more, and a
      SetPingInterval call that finds the slot taken stays blocked at its
      send whatever else happens. *)
Theorem C9_setter_blocks_after_Close (l : L) (sys : System L) :
  reachable l sys →
  (∀ d, SetPingInterval d (world sys) =
        match Chan.buf (newPingIntervalChannel (nc (world sys))) with
        | [] =>
            Ret SetPingInterval_ret
              (mkWorld
                 (set_newPingIntervalChannel (Chan.mk 1 [d] false) (nc (world sys)))
                 (heap (world sys)) (listener (world sys)))
        | _ :: _ => Blocks
        end) ∧
  (∀ b, SetBroadcastOnPingTimeout b (world sys) =
        if lock (nc (world sys)) then Blocks
        else Ret SetBroadcastOnPingTimeout_ret
               (mkWorld (set_broadcastOnPingTimeout b (nc (world sys)))
                  (heap (world sys)) (listener (world sys)))) ∧
  lock (nc (world sys)) = closed (nc (world sys)) ∧
  (closed (nc (world sys)) = true →
     ∀ acts sys' b, run acts sys = Some sys' →
       closed (nc (world sys')) = true ∧
       SetBroadcastOnPingTimeout b (world sys') = Blocks) ∧
  (∀ b d w' r,
     (SetBroadcastOnPingTimeout b (world sys) = Ret r w' →
        r = SetBroadcastOnPingTimeout_ret) ∧
     (SetPingInterval d (world sys) = Ret r w' → r = SetPingInterval_ret)) ∧
  loop_gone (mainLoop sys) = false ∧
  (closed (nc (world sys)) = true →
   lpc (mainLoop sys) = loop_pingTimeout_lock →
   ∀ d0 d i,
     newPingIntervalChannel (nc (world sys)) = Chan.mk 1 [d0] false →
     goroutines sys !! i = Some (SetPingInterval_send d) →
     ∀ acts sys', run acts sys = Some sys' →
       lpc (mainLoop sys') = loop_pingTimeout_lock ∧
       (∀ sel, exec (act_loop sel) sys' = None) ∧
       goroutines sys' !! i = Some (SetPingInterval_send d) ∧
       exec (act_go i) sys' = None).
Proof.
  intros Hr.
  pose proof (reachable_Inv _ _ Hr) as HI.
  pose proof HI as [(_ & Hlk & [Hcap Hopen] & _) _ (_ & Hnr & _)].
  pose proof (reachable_lock_closed l sys Hr) as Hl.
  split; [|split; [|split; [done|split; [|split; [|split]]]]].
  - intros d.
    destruct (Chan.buf (newPingIntervalChannel (nc (world sys))))
      as [|d0 rest] eqn:Eb.
    + apply SetPingInterval_ok. unfold Chan.send.
      by rewrite Hopen, Eb, Hcap.
    + apply SetPingInterval_full. unfold Chan.send.
      by rewrite Hopen, Eb, Hcap.
  - intros b. destruct (lock (nc (world sys))) eqn:El.
    + by apply SetBroadcastOnPingTimeout_locked.
    + by apply SetBroadcastOnPingTimeout_ok.
  - intros Hc acts sys' b Hrun.
    destruct (run_closed acts sys sys' HI Hc Hrun)
      as [[(_ & Hlk' & _) _ _] Hc'].
    split; [done|]. apply SetBroadcastOnPingTimeout_locked. by apply Hlk'.
  - intros b d w' r. split.
    + unfold SetBroadcastOnPingTimeout. rewrite run_call_step by done.
      simpl. munfold. simpl. destruct (lock (nc (world sys))); [done|]. simpl.
      rewrite run_call_Returned. congruence.
    + unfold SetPingInterval. rewrite run_call_step by done.
      simpl. munfold. simpl.
      destruct (Chan.send d (newPingIntervalChannel (nc (world sys))));
        try done.
      simpl. rewrite run_call_Returned. congruence.
  - destruct Hr as [acts Hr].
    destruct (run_discipline acts _ _ (Inv_NewNotifyCond l)
                ltac:(done) ltac:(done) Hr) as [Hnp _].
    unfold loop_gone. destruct (lpc (mainLoop sys)) eqn:E; try done.
    by destruct (Hnp msg).
  - intros Hc Hlpc d0 d i Hs Hi acts sys' Hrun.
    destruct (run_keeps_sender_blocked acts sys sys' i d d0 HI Hc Hlpc Hs Hi Hrun)
      as (Hlpc' & Hs' & Hi').
    destruct (run_closed acts sys sys' HI Hc Hrun)
      as [[(_ & Hlk' & _) _ _] Hc'].
    split; [done|]. split; [|split; [done|]].
    + intros sel. unfold exec.
      by rewrite loop_waits_for_lock by (done || by apply Hlk').
    + unfold exec. rewrite Hi'. simpl. munfold. simpl. by rewrite Hs'.
Qed.

(** C10.  The goroutine [pingTimeout] starts calls the listener's Ping
    and ends: whatever Ping answers, the dispatcher and every condition
    channel are as before, and the goroutine has no caller to hand an
    error to.  [Ping] itself hands the listener's answer to its caller and
    changes nothing in the dispatcher either. *)
Theorem C10_probe_error_discarded :
  (∀ w : World L,
     goroutine_step pingTimeout_go w =
       Ret Finished (mkWorld (nc w) (heap w) (listener_Ping (listener w)).2)) ∧
  (∀ (sys : System L) i,
     goroutines sys !! i = Some pingTimeout_go →
     exec (act_go i) sys =
       Some (mkSystem
               (mkWorld (nc (world sys)) (heap (world sys))
                  (listener_Ping (listener (world sys))).2)
               (mainLoop sys)
               (<[i := Finished]> (goroutines sys)))) ∧
  (∀ w : World L,
     Ping w =
       Ret (Ping_ret (listener_Ping (listener w)).1)
         (mkWorld (nc w) (heap w) (listener_Ping (listener w)).2)).
Proof.
  assert (∀ w : World L,
     goroutine_step pingTimeout_go w =
       Ret Finished (mkWorld (nc w) (heap w) (listener_Ping (listener w)).2))
    as Hstep.
  { intros w. simpl. munfold. simpl. by destruct (listener_Ping (listener w)). }
  split; [done|]. split.
  - intros sys i Hi. unfold exec. rewrite Hi. simpl. munfold. simpl.
    by destruct (listener_Ping (listener (world sys))).
  - apply Ping_forwards.
Qed.

End Setters.

(** * The theorems at work on concrete runs *)

Lemma reachable_intro {L : Type} `{!Listener L} (l : L) acts (sys : System L) :
  run acts (NewNotifyCond l) = Some sys → reachable l sys.
Proof. intros Hr. by exists acts. Defined.

(** C1 on the run [acts_close]: Listen("jobs") has returned its channel,
    the Close call stands at its send and cannot move, and the channel of
    "jobs" is open and empty, so that its consumer cannot receive. *)
Lemma C1_witness :
  ∃ sys, run acts_close (NewNotifyCond ()) = Some sys ∧
         goroutines sys !! 1 = Some Close_send ∧
         exec (act_go 1) sys = None ∧
         exec (act_consume 0) sys = None ∧
         (∀ i e, goroutines sys !! i ≠ Some (Returned (Close_ret e))).
Proof.
  exists (after acts_close ()). split; [by vm_compute|].
  assert (reachable () (after acts_close ())) as Hr
    by (apply (reachable_intro () acts_close); by vm_compute).
  destruct (C1_Close_never_returns () (after acts_close ()) Hr)
    as (Hret & _ & Hopen & Hsend & _).
  split; [reflexivity|]. split; [by apply Hsend|]. split; [|exact Hret].
  destruct (Hopen "jobs" 0) as (c & Hc & _ & Hrecv); [by vm_compute|].
  apply Hrecv. vm_compute in Hc. by simplify_eq.
Defined.

(** C6 on the run [acts_close], followed by a second Close call: the
    second call cannot take its first step. *)
Lemma C6_witness :
  ∃ sys sys', run acts_close (NewNotifyCond ()) = Some sys ∧
              run [act_call call_Close] sys = Some sys' ∧
              goroutines sys' !! 2 = Some Close_lock ∧
              exec (act_go 2) sys' = None ∧
              lock (nc (world sys')) = true ∧
              closeChannel (nc (world sys')) = None.
Proof.
  exists (after acts_close ()), (after (acts_close ++ [act_call call_Close]) ()).
  split; [by vm_compute|]. split; [by vm_compute|].
  assert (reachable () (after acts_close ())) as Hr
    by (apply (reachable_intro () acts_close); by vm_compute).
  assert (run [act_call call_Close] (after acts_close ()) =
          Some (after (acts_close ++ [act_call call_Close]) ())) as Hrun
    by (by vm_compute).
  destruct (C6_Close_blocks_holding_lock () (after acts_close ()) Hr eq_refl
              [act_call call_Close] _ Hrun)
    as (_ & Hlock & Hnil & Hsecond & _).
  split; [reflexivity|]. split; [by apply Hsecond|]. by split.
Defined.

(** C2 on four runs: [acts_close] followed by a Listen call (Close has
    begun: the call blocks), [acts_listen] ("jobs" is registered), and a
    new dispatcher with a listener that fails and with one that accepts. *)
Lemma C2_witness :
  (∃ sys, run acts_close (NewNotifyCond ()) = Some sys ∧
          closed (nc (world sys)) = true ∧
          Listen "mail" (world sys) = Blocks) ∧
  (∃ sys, run acts_listen (NewNotifyCond ()) = Some sys ∧
          Listen "jobs" (world sys) =
            Ret (Listen_ret None (Some ErrChannelAlreadyOpen)) (world sys)) ∧
  Listen "jobs" (world (NewNotifyCond [Some connection_lost])) =
    Ret (Listen_ret None (Some connection_lost))
      (mkWorld (nc (world (NewNotifyCond ()))) [Chan.mk 1 [] false] []) ∧
  Listen "jobs" (world (NewNotifyCond ())) =
    Ret (Listen_ret (Some 0) None)
      (mkWorld
         (set_channels {["jobs" := 0]} (nc (world (NewNotifyCond ()))))
         [Chan.mk 1 [] false] ()).
Proof.
  split; [|split; [|split]].
  - exists (after acts_close ()). split; [by vm_compute|].
    destruct (C2_Listen_blocks_after_Close () (after acts_close ()) "mail")
      as (_ & Hclosed & _).
    { apply (reachable_intro () acts_close). by vm_compute. }
    destruct (Hclosed ltac:(by vm_compute) [] _ eq_refl) as (? & _ & ?).
    by split.
  - exists (after acts_listen ()). split; [by vm_compute|].
    destruct (C2_Listen_blocks_after_Close () (after acts_listen ()) "jobs")
      as (_ & _ & Hopen).
    { apply (reachable_intro () acts_listen). by vm_compute. }
    destruct (Hopen ltac:(by vm_compute)) as [Hlive _].
    apply (Hlive 0). by vm_compute.
  - destruct (C2_Listen_blocks_after_Close [Some connection_lost]
                (NewNotifyCond [Some connection_lost]) "jobs")
      as (_ & _ & Hopen).
    { by apply (reachable_intro _ []). }
    destruct (Hopen eq_refl) as [_ Hnew].
    destruct (Hnew eq_refl) as (_ & Hfail & _).
    by apply (Hfail connection_lost []).
  - destruct (C2_Listen_blocks_after_Close () (NewNotifyCond ()) "jobs")
      as (_ & _ & Hopen).
    { by apply (reachable_intro _ []). }
    destruct (Hopen eq_refl) as [_ Hnew].
    destruct (Hnew eq_refl) as (_ & _ & Hok).
    by apply (Hok ()).
Defined.

Lemma wf_after {L : Type} `{!Listener L} (acts : list action) (l : L) :
  run acts (NewNotifyCond l) = Some (after acts l) → wf (world (after acts l)).
Proof.
  intros Hr.
  by destruct (reachable_Inv l _ (reachable_intro l acts _ Hr))
    as [(_ & _ & _ & ?) _ _].
Defined.

(** C3 on four runs: [acts_close] followed by an Unlisten call (Close
    has begun: the call blocks), a new dispatcher (the topic is not
    registered), and [acts_listen] with a listener that refuses the
    Unlisten and with one that accepts it. *)
Lemma C3_witness :
  (∃ sys, run acts_close (NewNotifyCond ()) = Some sys ∧
          closed (nc (world sys)) = true ∧
          Unlisten "jobs" (world sys) = Blocks) ∧
  Unlisten "jobs" (world (NewNotifyCond ())) =
    Ret (Unlisten_ret (Some ErrChannelNotOpen)) (world (NewNotifyCond ())) ∧
  (∃ sys, run acts_listen (NewNotifyCond [None; Some connection_lost]) = Some sys ∧
          Unlisten "jobs" (world sys) =
            Ret (Unlisten_ret (Some connection_lost))
              (mkWorld (nc (world sys)) (heap (world sys)) [])) ∧
  (∃ sys w', run acts_listen (NewNotifyCond ()) = Some sys ∧
             Unlisten "jobs" (world sys) = Ret (Unlisten_ret None) w' ∧
             channels (nc w') = ∅ ∧ heap w' = [Chan.mk 1 [] true] ∧
             Unlisten "jobs" w' = Ret (Unlisten_ret (Some ErrChannelNotOpen)) w').
Proof.
  split; [|split; [|split]].
  - exists (after acts_close ()). split; [by vm_compute|].
    destruct (C3_Unlisten_blocks_after_Close () (after acts_close ()) "jobs")
      as (_ & Hclosed & _).
    { apply (reachable_intro () acts_close). by vm_compute. }
    destruct (Hclosed ltac:(by vm_compute) [] _ eq_refl) as (? & _ & ?).
    by split.
  - destruct (C3_Unlisten_blocks_after_Close () (NewNotifyCond ()) "jobs")
      as (_ & _ & Hopen).
    { by apply (reachable_intro _ []). }
    destruct (Hopen eq_refl) as [Hnot _]. by apply Hnot.
  - exists (after acts_listen [None; Some connection_lost]).
    split; [by vm_compute|].
    destruct (C3_Unlisten_blocks_after_Close [None; Some connection_lost]
                (after acts_listen [None; Some connection_lost]) "jobs")
      as (_ & _ & Hopen).
    { apply (reachable_intro _ acts_listen). by vm_compute. }
    destruct (Hopen ltac:(by vm_compute)) as (_ & Hreg & _).
    destruct (Hreg 0 ltac:(by vm_compute)) as [Hfail _].
    apply (Hfail connection_lost []). by vm_compute.
  - destruct (C3_Unlisten_blocks_after_Close () (after acts_listen ()) "jobs")
      as (_ & _ & Hopen).
    { apply (reachable_intro () acts_listen). by vm_compute. }
    destruct (Hopen ltac:(by vm_compute)) as (_ & Hreg & _).
    destruct (Hreg 0 ltac:(by vm_compute)) as [_ Hok].
    destruct (Hok () ltac:(by vm_compute)) as (c & w' & Hc & Ho & Hu & Hw' & Hagain).
    exists (after acts_listen ()), w'. split; [by vm_compute|].
    split; [done|]. vm_compute in Hc. simplify_eq.
    split; [by vm_compute|]. split; [by vm_compute|]. exact Hagain.
Defined.

(** C4 on the run [acts_listen]: the notification for "jobs" handled
    twice leaves what handling it once leaves, one pending value. *)
Lemma C4_witness :
  ∃ sys w', run acts_listen (NewNotifyCond ()) = Some sys ∧
            notify_all [job_42; job_42] (world sys) = Ret () w' ∧
            notify_all [job_42] (world sys) = Ret () w' ∧
            heap w' = [Chan.mk 1 [Some job_42] false].
Proof.
  assert (reachable () (after acts_listen ())) as Hr
    by (apply (reachable_intro () acts_listen); by vm_compute).
  destruct (C4_at_most_one_pending () (after acts_listen ()) Hr)
    as (_ & _ & Hsame).
  specialize (Hsame job_42 [job_42] ltac:(by repeat constructor)).
  exists (after acts_listen ()).
  eexists. split; [by vm_compute|]. split; [|split].
  - rewrite Hsame. by vm_compute.
  - by vm_compute.
  - by vm_compute.
Defined.


(** C7 on four runs: [acts_stale_tick] with a scripted listener (the
    listener has been asked once, though no interval was set), a new
    dispatcher whose loop got to the Stop first (the timer case cannot be
    taken), the run [acts_probe] cut before the loop receives the tick
    (it can), and [acts_listen], in which SetPingInterval is never called
    and the loop moves first. *)
Lemma C7_witness :
  (∃ sys, run acts_stale_tick (NewNotifyCond [Some connection_lost]) = Some sys ∧
          pingInterval (mainLoop sys) = None ∧
          listener (world sys) = [] ∧
          goroutines sys = [Finished] ∧
          probes sys = 1) ∧
  (∃ sys, run [act_loop sel_pingTimer] (NewNotifyCond ()) = Some sys ∧
          lpc (mainLoop sys) = loop_select ∧
          exec (act_loop sel_pingTimer) sys = None) ∧
  (∃ sys, run (take 6 acts_probe) (NewNotifyCond ()) = Some sys ∧
          exec (act_loop sel_pingTimer) sys =
            Some (mkSystem (world sys)
                    (mkLoop (mkTimer false (Chan.mk 1 [] false)) (Some 5%Z)
                       loop_pingTimeout_go)
                    (goroutines sys))) ∧
  (∃ sys, run (act_loop sel_pingTimer :: acts_listen) (NewNotifyCond ()) = Some sys ∧
          pingInterval (mainLoop sys) = None ∧
          Forall (λ p, is_probe p = false) (goroutines sys)).
Proof.
  split; [|split; [|split]].
  - destruct (C7_probe_without_interval [Some connection_lost])
      as (_ & Hstale & Hbound & _).
    eexists. split; [exact Hstale|]. simpl.
    destruct (Hbound acts_stale_tick _ eq_refl Hstale) as [Hnone _].
    by vm_compute.
  - destruct (C7_probe_without_interval ()) as (Hstate & _).
    exists (after [act_loop sel_pingTimer] ()).
    split; [by vm_compute|]. split; [by vm_compute|].
    destruct (Hstate (after [act_loop sel_pingTimer] ()) sel_pingTimer)
      as (_ & _ & Hsel & _).
    { apply (reachable_intro () [act_loop sel_pingTimer]). by vm_compute. }
    by rewrite Hsel.
  - destruct (C7_probe_without_interval ()) as (Hstate & _).
    exists (after (take 6 acts_probe) ()). split; [by vm_compute|].
    destruct (Hstate (after (take 6 acts_probe) ()) sel_pingTimer)
      as (_ & _ & Hsel & _).
    { apply (reachable_intro () (take 6 acts_probe)). by vm_compute. }
    by rewrite Hsel.
  - destruct (C7_probe_without_interval ()) as (_ & _ & _ & Hquiet).
    exists (after (act_loop sel_pingTimer :: acts_listen) ()).
    split; [by vm_compute|].
    destruct (Hquiet sel_pingTimer acts_listen
                (after (act_loop sel_pingTimer :: acts_listen) ()))
      as (Hnone & _ & _ & _ & Hprobes); [done|by vm_compute|].
    by split.
Defined.

(** C8 on a new dispatcher and the topic "jobs", and on the state with
    "jobs" registered. *)
Lemma C8_witness :
  (r1 ← Listen "jobs"; r2 ← Unlisten "jobs"; r3 ← Listen "jobs"; mret (r1, r2, r3))
    (world (NewNotifyCond ())) =
    Ret (Listen_ret (Some 0) None, Unlisten_ret None, Listen_ret (Some 1) None)
      (mkWorld
         (set_channels {["jobs" := 1]} (nc (world (NewNotifyCond ()))))
         [Chan.mk 1 [] true; Chan.mk 1 [] false] ()) ∧
  (∃ sys, run acts_listen (NewNotifyCond ()) = Some sys ∧
          Listen "jobs" (world sys) =
            Ret (Listen_ret None (Some ErrChannelAlreadyOpen)) (world sys)).
Proof.
  split.
  - destruct (C8_topic_reusable "jobs" (world (NewNotifyCond ())) eq_refl eq_refl)
      as [Hreuse _].
    by apply (Hreuse eq_refl () () ()).
  - exists (after acts_listen ()). split; [by vm_compute|].
    destruct (C8_topic_reusable "jobs" (world (after acts_listen ())))
      as [_ Hlive]; [by vm_compute|by vm_compute|].
    apply (Hlive 0). by vm_compute.
Defined.

(** C9 on the run [acts_close], where Close has begun and holds the
    mutex (SetPingInterval is accepted, SetBroadcastOnPingTimeout
    blocks), and on the run [acts_stuck], where the loop waits for the
    mutex and the third SetPingInterval call stays blocked. *)
Lemma C9_witness :
  (∃ sys, run acts_close (NewNotifyCond ()) = Some sys ∧
          closed (nc (world sys)) = true ∧
          SetPingInterval 5 (world sys) =
            Ret SetPingInterval_ret
              (mkWorld
                 (set_newPingIntervalChannel (Chan.mk 1 [5%Z] false) (nc (world sys)))
                 (heap (world sys)) ()) ∧
          SetBroadcastOnPingTimeout true (world sys) = Blocks) ∧
  (∃ sys, run acts_stuck (NewNotifyCond ()) = Some sys ∧
          goroutines sys !! 4 = Some (SetPingInterval_send 9) ∧
          exec (act_go 4) sys = None ∧
          exec (act_loop sel_newPingInterval) sys = None ∧
          ∀ acts sys', run acts sys = Some sys' →
            goroutines sys' !! 4 = Some (SetPingInterval_send 9)).
Proof.
  split.
  - exists (after acts_close ()). split; [by vm_compute|].
    split; [by vm_compute|].
    destruct (C9_setter_blocks_after_Close () (after acts_close ()))
      as (Hsend & Hflag & _ & _).
    { apply (reachable_intro () acts_close). by vm_compute. }
    split.
    + rewrite (Hsend 5%Z). by vm_compute.
    + rewrite (Hflag true). by vm_compute.
  - exists (after acts_stuck ()). split; [by vm_compute|].
    split; [by vm_compute|].
    destruct (C9_setter_blocks_after_Close () (after acts_stuck ()))
      as (_ & _ & _ & _ & _ & _ & Hstuck).
    { apply (reachable_intro () acts_stuck). by vm_compute. }
    pose proof (Hstuck ltac:(by vm_compute) ltac:(by vm_compute) 7%Z 9%Z 4
                  ltac:(by vm_compute) ltac:(by vm_compute)) as Hrun.
    destruct (Hrun [] (after acts_stuck ()) eq_refl) as (_ & Hloop & _ & Hgo).
    split; [exact Hgo|]. split; [apply Hloop|].
    intros acts sys' Hr. by destruct (Hrun acts sys' Hr) as (_ & _ & ? & _).
Defined.

(** C10 on the run [acts_probe] with a listener whose Ping fails: the
    probe ends, the dispatcher and the channels are as before, and only
    the listener has moved on; [Ping] on the same listener hands the
    failure to its caller. *)
Lemma C10_witness :
  (∃ sys, run acts_probe (NewNotifyCond [Some connection_lost]) = Some sys ∧
          goroutines sys !! 1 = Some pingTimeout_go ∧
          exec (act_go 1) sys =
            Some (mkSystem (mkWorld (nc (world sys)) (heap (world sys)) [])
                    (mainLoop sys)
                    [Returned SetPingInterval_ret; Finished])) ∧
  Ping (world (NewNotifyCond [Some connection_lost])) =
    Ret (Ping_ret (Some connection_lost))
      (mkWorld (nc (world (NewNotifyCond ()))) [] []).
Proof.
  destruct (C10_probe_error_discarded (L := list (option error)))
    as (_ & Hprobe & Hping).
  split.
  - exists (after acts_probe [Some connection_lost]).
    split; [by vm_compute|]. split; [by vm_compute|].
    rewrite (Hprobe (after acts_probe [Some connection_lost]) 1)
      by (by vm_compute).
    by vm_compute.
  - by rewrite Hping.
Defined.

(** * Further properties of the program *)

Section Further.
Context {L : Type} `{!Listener L}.

(** X1.  Once a Close call has set [closed], every goroutine that comes to
    a place where it must take the mutex stays there: Listen, Unlisten,
    SetBroadcastOnPingTimeout and Close calls made from then on never
    return, and none of them answers [errClosed]. *)
Theorem X1_Close_starves_callers (l : L) (sys : System L) :
  reachable l sys → closed (nc (world sys)) = true →
  ∀ acts sys', run acts sys = Some sys' →
  ∀ i p, goroutines sys' !! i = Some p → needs_lock p = true →
         exec (act_go i) sys' = None.
Proof.
  intros Hr Hc acts sys' Hrun i p Hi Hp.
  destruct (run_closed acts sys sys' (reachable_Inv _ _ Hr) Hc Hrun)
    as [[(_ & Hlk & _) _ _] Hc'].
  specialize (Hlk Hc'). unfold exec. rewrite Hi. simpl.
  destruct p; try done; simpl; unfold removeChannel; munfold; simpl;
    by rewrite Hlk.
Qed.

(** X2.  In every state the program can reach, [closeChannel] is nil, the
    interval channel is an open channel with one slot, every condition
    channel has capacity 1 and at most one value in it, every topic in
    the map has an open channel, and no two topics share a channel. *)
Theorem X2_reachable_well_formed (l : L) (sys : System L) :
  reachable l sys →
  closeChannel (nc (world sys)) = None ∧
  Chan.cap (newPingIntervalChannel (nc (world sys))) = 1 ∧
  Chan.closed (newPingIntervalChannel (nc (world sys))) = false ∧
  wf (world sys).
Proof.
  intros Hr. by destruct (reachable_Inv _ _ Hr) as [(? & _ & [? ?] & ?) _ _].
Qed.

End Further.

(** X1 on the run [acts_close] followed by a Listen call: the call cannot
    take its first step. *)
Lemma X1_witness :
  ∃ sys', run (acts_close ++ [act_call (call_Listen "mail")]) (NewNotifyCond ()) =
            Some sys' ∧
          goroutines sys' !! 2 = Some (Listen_lock "mail") ∧
          exec (act_go 2) sys' = None.
Proof.
  exists (after (acts_close ++ [act_call (call_Listen "mail")]) ()).
  split; [by vm_compute|]. split; [by vm_compute|].
  assert (reachable () (after acts_close ())) as Hr
    by (apply (reachable_intro () acts_close); by vm_compute).
  apply (X1_Close_starves_callers () (after acts_close ()) Hr eq_refl
           [act_call (call_Listen "mail")] _ ltac:(by vm_compute)
           2 (Listen_lock "mail")); by vm_compute.
Defined.

(** X2 on the run [acts_resync]. *)
Lemma X2_witness :
  ∃ sys, run acts_resync (NewNotifyCond ()) = Some sys ∧ wf (world sys).
Proof.
  exists (after acts_resync ()). split; [by vm_compute|].
  apply (X2_reachable_well_formed () (after acts_resync ())).
  apply (reachable_intro () acts_resync). by vm_compute.
Defined.

(** * More properties of the dispatcher *)

Section Discipline.
Context {L : Type} `{!Listener L}.

(** X3.  The dispatcher loop never panics: in no state the program can
    reach, whatever the callers and the listener do, has the loop sent on
    a closed channel, closed a channel twice or driven the WaitGroup
    negative. *)
Theorem X3_loop_never_panics (l : L) (sys : System L) :
  reachable l sys → ∀ msg, lpc (mainLoop sys) ≠ loop_panicked msg.
Proof.
  intros [acts Hr].
  by destruct (run_discipline acts _ _ (Inv_NewNotifyCond l)
                 ltac:(done) ltac:(done) Hr).
Qed.

(** X4.  The mutex is held across steps by the stuck Close call and by
    nothing else: in every reachable state [s.lock] is held exactly when
    [closed] is set.  Every other critical section ends with the mutex
    released, also when [removeChannel] panics. *)
Theorem X4_lock_held_iff_closed (l : L) (sys : System L) :
  reachable l sys → lock (nc (world sys)) = closed (nc (world sys)).
Proof. apply reachable_lock_closed. Qed.

(** X5.  As long as Close has not been called, a Listen or Unlisten call
    that runs without interference returns: it does not block and it does
    not panic, whatever the listener answers. *)
Theorem X5_calls_return_while_open (l : L) (sys : System L) (T : string) :
  reachable l sys → closed (nc (world sys)) = false →
  (∃ r w', Listen T (world sys) = Ret r w') ∧
  (∃ r w', Unlisten T (world sys) = Ret r w').
Proof.
  intros Hr Hc. pose proof (reachable_lock_closed l sys Hr) as Hl.
  rewrite Hc in Hl.
  pose proof (reachable_Inv _ _ Hr) as [(_ & _ & _ & Hwf) _ _].
  destruct (channels (nc (world sys)) !! T) as [ch|] eqn:Hm; split.
  - eexists _, _. by eapply Listen_already_open.
  - destruct (listener_Unlisten T (listener (world sys))) as [[e|] l'] eqn:Hs.
    + eexists _, _. by eapply Unlisten_listener_error.
    + destruct Hwf as (_ & Hv & _). destruct (Hv _ _ Hm) as (c & Hh & Ho).
      eexists _, _. by eapply Unlisten_ok.
  - destruct (listener_Listen T (listener (world sys))) as [[e|] l'] eqn:Hs.
    + eexists _, _. by eapply Listen_listener_error.
    + eexists _, _. by eapply Listen_ok.
  - eexists _, _. by eapply Unlisten_not_open.
Qed.

End Discipline.

Section Consumers.
Context {L : Type} `{!Listener L}.

Lemma offer_one_slot_length {A} (v : A) (c : Chan.t A) :
  Chan.cap c = 1 → Chan.closed c = false → length (Chan.buf c) ≤ 1 →
  length (Chan.buf (offer v c)) = 1.
Proof.
  intros Hcap Ho Hlen. rewrite offer_one_slot by done.
  destruct (Chan.buf c) as [|x rest] eqn:Eb; [done|].
  rewrite Eb. simpl in *. lia.
Qed.

(** X6.  The promise in the comment of Listen: in every reachable state,
    once [notify] has handled a notification for a registered topic there
    is exactly one value pending in the topic's channel, and once
    [broadcast] has run there is exactly one value pending in the channel
    of every registered topic. *)
Theorem X6_pending_after_notification (l : L) (sys : System L) :
  reachable l sys →
  (∀ T ch n, channels (nc (world sys)) !! T = Some ch →
     ∃ w' c', notify T n (world sys) = Ret () w' ∧
              heap w' !! ch = Some c' ∧ length (Chan.buf c') = 1) ∧
  (∃ w', broadcast (world sys) = Ret () w' ∧
         ∀ T ch, channels (nc (world sys)) !! T = Some ch →
           ∃ c', heap w' !! ch = Some c' ∧ length (Chan.buf c') = 1).
Proof.
  intros Hr. pose proof (reachable_Inv _ _ Hr) as [(_ & _ & _ & Hwf) _ _].
  pose proof Hwf as (Hok & Hv & _). split.
  - intros T ch n Hm. destruct (Hv _ _ Hm) as (c & Hc & Ho).
    destruct (Hok _ _ Hc) as [Hcap Hlen].
    eexists _, (offer n c). split; [by eapply notify_registered|].
    simpl. split; [|by apply offer_one_slot_length].
    apply list_lookup_insert_eq. by eapply lookup_lt_Some.
  - destruct (broadcast_spec (world sys) Hwf)
      as (w' & Hb & _ & _ & _ & _ & Hreg & _).
    exists w'. split; [done|]. intros T ch Hm.
    destruct (Hv _ _ Hm) as (c & Hc & Ho). destruct (Hok _ _ Hc) as [Hcap Hlen].
    exists (offer None c). rewrite Hreg by (by exists T). rewrite Hc.
    split; [done|]. by apply offer_one_slot_length.
Qed.

(** X7.  Delivery and receive.  In a reachable state in which the loop
    has received a notification [n] for a registered topic and the mutex
    is free, the loop's next step is enabled; afterwards a receive on the
    topic's channel yields [n] if the channel was empty and the value that
    was pending otherwise ([n] is lost), it leaves the channel empty, and
    a second receive blocks. *)
Theorem X7_deliver_then_receive (l : L) (sys : System L) sel n ch c :
  reachable l sys →
  lpc (mainLoop sys) = loop_notify (Some n) →
  lock (nc (world sys)) = false →
  channels (nc (world sys)) !! Channel n = Some ch →
  heap (world sys) !! ch = Some c →
  ∃ sys1 c1 sys2,
    exec (act_loop sel) sys = Some sys1 ∧
    heap (world sys1) !! ch = Some c1 ∧
    Chan.recv c1 =
      Chan.Received (match Chan.buf c with [] => Some n | m :: _ => m end)
        (Chan.mk 1 [] false) ∧
    exec (act_consume ch) sys1 = Some sys2 ∧
    heap (world sys2) !! ch = Some (Chan.mk 1 [] false) ∧
    exec (act_consume ch) sys2 = None.
Proof.
  intros Hr Hl El Hm Hc.
  pose proof (reachable_Inv _ _ Hr) as [(_ & _ & _ & Hwf) _ _].
  pose proof Hwf as (Hok & Hv & _).
  destruct (Hv _ _ Hm) as (c' & Hc' & Ho).
  assert (c' = c) as -> by congruence.
  destruct (Hok _ _ Hc) as [Hcap Hlen].
  pose proof (lookup_lt_Some _ _ _ Hc) as Hlt.
  set (c1 := offer (Some n) c).
  assert (Chan.recv c1 =
          Chan.Received (match Chan.buf c with [] => Some n | m :: _ => m end)
            (Chan.mk 1 [] false)) as Hrecv.
  { unfold c1. rewrite offer_one_slot by done. unfold Chan.recv.
    destruct c as [cap [|m [|m' rest]] cl]; simpl in *; subst; try done; lia. }
  eexists _, c1, _. split; [|split; [|split; [done|split; [|split]]]].
  - unfold exec. rewrite (loop_notify_step _ _ (Some n)) by done.
    rewrite (notify_registered (Channel n) ch c); [|done..]. done.
  - simpl. by apply list_lookup_insert_eq.
  - unfold exec at 1. simpl. rewrite list_lookup_insert_eq by done. simpl.
    fold c1. by rewrite Hrecv.
  - simpl. apply list_lookup_insert_eq. by rewrite length_insert.
  - unfold exec. simpl.
    rewrite list_lookup_insert_eq by (by rewrite length_insert). done.
Qed.

(** X8.  Unlisten and the consumer.  After a successful Unlisten the
    topic's channel is closed with its buffer untouched: a value that was
    pending can still be received, and after it (or at once, if there was
    none) a receive reports the channel closed.  The dispatcher no longer
    touches that channel: [notify] for the topic changes nothing. *)
Theorem X8_Unlisten_keeps_pending (T : string) (w : World L) ch c l' :
  lock (nc w) = false → closed (nc w) = false →
  channels (nc w) !! T = Some ch →
  heap w !! ch = Some c → Chan.closed c = false →
  listener_Unlisten T (listener w) = (None, l') →
  ∃ w' c',
    Unlisten T w = Ret (Unlisten_ret None) w' ∧
    heap w' !! ch = Some c' ∧
    Chan.recv c' =
      match Chan.buf c with
      | [] => Chan.RecvClosed
      | v :: rest => Chan.Received v (Chan.mk (Chan.cap c) rest true)
      end ∧
    (∀ n, notify T n w' = Ret () w').
Proof.
  intros Hl Hc Hm Hh Ho Hs.
  eexists _, _. split; [by eapply Unlisten_ok|]. simpl.
  split; [apply list_lookup_insert_eq; by eapply lookup_lt_Some|].
  split.
  - unfold Chan.recv. simpl. by destruct (Chan.buf c).
  - intros n. apply notify_unregistered. simpl. apply lookup_delete_eq.
Qed.

(** X9.  Topics do not disturb each other: in a reachable state, handling
    a notification for one topic leaves the channel of every other
    registered topic, the map and the listener exactly as they were. *)
Theorem X9_topics_isolated (l : L) (sys : System L) T n :
  reachable l sys →
  ∃ w', notify T n (world sys) = Ret () w' ∧
        nc w' = nc (world sys) ∧ listener w' = listener (world sys) ∧
        ∀ T' ch', T' ≠ T → channels (nc (world sys)) !! T' = Some ch' →
                  heap w' !! ch' = heap (world sys) !! ch'.
Proof.
  intros Hr. pose proof (reachable_Inv _ _ Hr) as [(_ & _ & _ & Hwf) _ _].
  pose proof Hwf as (Hok & Hv & Hi).
  destruct (channels (nc (world sys)) !! T) as [ch|] eqn:Hm.
  - destruct (Hv _ _ Hm) as (c & Hc & Ho).
    eexists. split; [by eapply notify_registered|]. simpl.
    do 2 (split; [done|]). intros T' ch' Hne Hm'.
    apply list_lookup_insert_ne. intros <-. by destruct (Hne (Hi _ _ _ Hm' Hm)).
  - exists (world sys). by rewrite notify_unregistered.
Qed.

End Consumers.

Section Intervals.
Context {L : Type} `{!Listener L}.

Lemma loop_step_interval sel l0 (w : World L) :
  match mainDispatcherLoop_step sel l0 w with
  | Ret (l', _) _ => is_Some (pingInterval l0) → is_Some (pingInterval l')
  | _ => True
  end.
Proof.
  unfold mainDispatcherLoop_step.
  destruct (lpc l0); try destruct sel; munfold; simpl;
    repeat case_match; simplify_eq/=; eauto.
Qed.

Lemma exec_interval_stays a (sys sys' : System L) :
  is_Some (pingInterval (mainLoop sys)) → exec a sys = Some sys' →
  is_Some (pingInterval (mainLoop sys')).
Proof.
  intros Hi Hex. destruct a as [c|i|sel|ch|]; simpl in Hex.
  - by simplify_eq.
  - destruct (goroutines sys !! i); simpl in Hex; [|done].
    destruct (goroutine_step _ _); by simplify_eq.
  - pose proof (loop_step_interval sel (mainLoop sys) (world sys)) as Hstep.
    destruct (mainDispatcherLoop_step sel (mainLoop sys) (world sys))
      as [[l' started] w'|msg w'|]; simplify_eq; simpl; auto.
  - destruct (heap (world sys) !! ch); simpl in Hex; [|done].
    destruct (Chan.recv _); by simplify_eq.
  - destruct (Timer_expire _); by simplify_eq/=.
Qed.

(** X10.  SetPingInterval and the loop.  In a reachable state in which
    the loop waits in its select and the interval channel is empty, a
    SetPingInterval(d) call returns at once, the loop can take the
    interval, and at the top of its next iteration it arms the timer,
    whatever [d] is (zero and negative durations included).  And an
    interval, once set, is never unset again by anything the program
    does: there is no way to turn the keepalive off. *)
Theorem X10_interval_reaches_the_loop (l : L) (sys : System L) i d sel :
  reachable l sys →
  lpc (mainLoop sys) = loop_select →
  Chan.buf (newPingIntervalChannel (nc (world sys))) = [] →
  goroutines sys !! i = Some (SetPingInterval_send d) →
  ∃ sys1 sys2 sys3,
    exec (act_go i) sys = Some sys1 ∧
    goroutines sys1 !! i = Some (Returned SetPingInterval_ret) ∧
    exec (act_loop sel_newPingInterval) sys1 = Some sys2 ∧
    pingInterval (mainLoop sys2) = Some d ∧
    Chan.buf (newPingIntervalChannel (nc (world sys2))) = [] ∧
    exec (act_loop sel) sys2 = Some sys3 ∧
    armed (pingTimer (mainLoop sys3)) = true ∧
    ∀ acts sys', run acts sys2 = Some sys' →
                 is_Some (pingInterval (mainLoop sys')).
Proof.
  intros Hr Hl Hb Hi.
  pose proof (reachable_Inv _ _ Hr) as [(_ & _ & [Hcap Hopen] & _) _ _].
  pose proof (lookup_lt_Some _ _ _ Hi) as Hlt.
  eexists _, _, _. split; [|split; [|split; [|split; [|split; [|split; [|split]]]]]].
  - unfold exec. rewrite Hi. simpl. munfold. simpl.
    unfold Chan.send. rewrite Hopen, Hb, Hcap. simpl. done.
  - simpl. by apply list_lookup_insert_eq.
  - unfold exec. simpl. unfold mainDispatcherLoop_step. rewrite Hl.
    munfold. simpl. done.
  - done.
  - done.
  - unfold exec. simpl. done.
  - done.
  - intros acts. generalize (ex_intro (λ x, Some d = Some x) d eq_refl).
    match goal with |- _ → ∀ sys', run acts ?s = _ → _ =>
      change (is_Some (pingInterval (mainLoop s)) →
              ∀ sys', run acts s = Some sys' →
                      is_Some (pingInterval (mainLoop sys')));
      generalize s
    end.
    induction acts as [|a acts IH]; intros s Hs sys' Hrun; simpl in Hrun.
    + by simplify_eq.
    + destruct (exec a s) as [s1|] eqn:Ea; simpl in Hrun; [|done].
      apply (IH s1); [by eapply exec_interval_stays|done].
Qed.

End Intervals.

Section ShutdownCode.
Context {L : Type} `{!Listener L}.

(** [close(ch)] for each of distinct open channels. *)
Lemma close_each chs (w : World L) :
  NoDup chs →
  (∀ ch, ch ∈ chs → ∃ c, heap w !! ch = Some c ∧ Chan.closed c = false) →
  ∃ w', foldr (λ ch rest, close_chan ch ;; rest) (mret ()) chs w = Ret () w' ∧
        nc w' = nc w ∧ listener w' = listener w ∧
        ∀ ch, heap w' !! ch =
              if decide (ch ∈ chs)
              then (λ c, Chan.mk (Chan.cap c) (Chan.buf c) true) <$> heap w !! ch
              else heap w !! ch.
Proof.
  revert w. induction chs as [|ch0 chs IH]; intros w Hnd Hopen.
  - exists w. do 3 (split; [done|]). intros ch.
    rewrite decide_False; [done|]. by intros ?%elem_of_nil.
  - apply NoDup_cons in Hnd as [Hnin Hnd].
    destruct (Hopen ch0) as (c0 & Hc0 & Ho0); [by left|].
    simpl. unfold mbind at 1, M_bind at 1. unfold close_chan at 1.
    rewrite Hc0. unfold Chan.close. rewrite Ho0.
    set (w1 := mkWorld (nc w)
                 (<[ch0 := Chan.mk (Chan.cap c0) (Chan.buf c0) true]> (heap w))
                 (listener w)).
    destruct (IH w1 Hnd) as (w' & Hf & Hnc & Hls & Hlk).
    { intros ch Hin. destruct (Hopen ch) as (c & Hc & Ho); [by right|].
      exists c. split; [|done]. simpl.
      rewrite list_lookup_insert_ne; [done|]. by intros <-. }
    exists w'. split; [done|]. do 2 (split; [done|]).
    intros ch. rewrite Hlk. simpl.
    destruct (decide (ch = ch0)) as [->|Hne].
    + rewrite decide_False by done.
      rewrite decide_True by (by left).
      rewrite list_lookup_insert_eq by (by eapply lookup_lt_Some).
      by rewrite Hc0.
    + rewrite list_lookup_insert_ne by done.
      destruct (decide (ch ∈ chs)) as [Hin|Hnin'].
      * rewrite decide_True; [done|]. by right.
      * rewrite decide_False; [done|].
        by intros [?|?]%elem_of_cons.
Qed.

(** X11.  [shutdown], run with the mutex free on a well-formed state whose
    WaitGroup counter is positive (as after [Add(1)]): it returns, with
    every registered channel closed and whatever was pending in it still
    there, every other channel untouched, the counter one lower and the
    mutex released.  The entries stay in the map: the topics are still
    registered, now with closed channels, so a [notify] for any of them
    after [shutdown] would panic. *)
Theorem X11_shutdown_closes_every_channel (w : World L) :
  lock (nc w) = false → wf w → (0 < closeWaitGroup (nc w))%Z →
  ∃ w', shutdown w = Ret () w' ∧
        nc w' = set_closeWaitGroup (closeWaitGroup (nc w) - 1)%Z (nc w) ∧
        listener w' = listener w ∧
        (∀ T ch, channels (nc w) !! T = Some ch →
           ∃ c, heap w !! ch = Some c ∧
                heap w' !! ch = Some (Chan.mk (Chan.cap c) (Chan.buf c) true) ∧
                ∀ n, notify T n w' = Panics "send on closed channel" w') ∧
        (∀ ch, ¬ registered w ch → heap w' !! ch = heap w !! ch).
Proof.
  intros El (Hok & Hv & Hi) Hwg.
  set (w1 := mkWorld (set_lock true (nc w)) (heap w) (listener w)).
  destruct (close_each (map_to_list (channels (nc w))).*2 w1)
    as (w2 & Hf & Hnc & Hls & Hlk).
  { apply NoDup_fmap_2_strong; [|apply NoDup_map_to_list].
    intros [T1 c1] [T2 c2] H1%elem_of_map_to_list H2%elem_of_map_to_list Heq.
    simpl in Heq. subst. f_equal. by eapply Hi. }
  { intros ch ([T ch'] & -> & Hin%elem_of_map_to_list)%list_elem_of_fmap.
    simpl. by eapply Hv. }
  assert (∀ ch, ch ∈ (map_to_list (channels (nc w))).*2 ↔ registered w ch)
    as Hreg.
  { intros ch. rewrite list_elem_of_fmap. split.
    - intros ([T ch'] & -> & Hin%elem_of_map_to_list). by exists T.
    - intros [T HT]. exists (T, ch). split; [done|].
      by apply elem_of_map_to_list. }
  exists (mkWorld (set_lock false (set_closeWaitGroup
                     (closeWaitGroup (nc w) - 1)%Z (nc w2)))
            (heap w2) (listener w2)).
  split; [|split; [|split; [done|split]]].
  - unfold shutdown, closeWaitGroup_Done. munfold. simpl. rewrite El. simpl.
    fold w1. rewrite Hf. simpl. rewrite Hnc. simpl.
    destruct (closeWaitGroup (nc w) - 1 <? 0)%Z eqn:E.
    { apply Z.ltb_lt in E. lia. }
    munfold. simpl. by rewrite ?Hnc.
  - simpl. rewrite Hnc. simpl. destruct (nc w); simpl in *. by subst.
  - intros T ch Hm. destruct (Hv _ _ Hm) as (c & Hc & Ho).
    exists c. split; [done|]. simpl.
    assert (heap w2 !! ch = Some (Chan.mk (Chan.cap c) (Chan.buf c) true))
      as Hc2.
    { rewrite Hlk, decide_True by (apply Hreg; by exists T).
      simpl. by rewrite Hc. }
    split; [done|]. intros n.
    apply (notify_closed T ch (Chan.mk (Chan.cap c) (Chan.buf c) true));
      simpl; [by rewrite Hnc|done|done].
  - intros ch Hn. simpl. rewrite Hlk, decide_False; [done|].
    by rewrite Hreg.
Qed.

End ShutdownCode.

(** X3 on the run [acts_resync] followed by the broadcast. *)
Lemma X3_witness :
  run (acts_resync ++ [act_loop sel_pingTimer]) (NewNotifyCond ()) =
    Some (after (acts_resync ++ [act_loop sel_pingTimer]) ()) ∧
  ∀ msg, lpc (mainLoop (after (acts_resync ++ [act_loop sel_pingTimer]) ())) ≠
         loop_panicked msg.
Proof.
  split; [by vm_compute|].
  apply (X3_loop_never_panics ()).
  apply (reachable_intro () (acts_resync ++ [act_loop sel_pingTimer])).
  by vm_compute.
Defined.

(** X4 on the runs [acts_listen] (mutex free, open) and [acts_close]
    (mutex held, closed). *)
Lemma X4_witness :
  (lock (nc (world (after acts_listen ()))) = false ∧
   lock (nc (world (after acts_listen ()))) =
     closed (nc (world (after acts_listen ())))) ∧
  (lock (nc (world (after acts_close ()))) = true ∧
   lock (nc (world (after acts_close ()))) =
     closed (nc (world (after acts_close ())))).
Proof.
  split; (split; [by vm_compute|]); apply (X4_lock_held_iff_closed ()).
  - apply (reachable_intro () acts_listen). by vm_compute.
  - apply (reachable_intro () acts_close). by vm_compute.
Defined.

(** X5 on the run [acts_listen] and the topic "jobs". *)
Lemma X5_witness :
  (∃ r w', Listen "jobs" (world (after acts_listen ())) = Ret r w') ∧
  (∃ r w', Unlisten "jobs" (world (after acts_listen ())) = Ret r w').
Proof.
  apply (X5_calls_return_while_open () (after acts_listen ()) "jobs").
  - apply (reachable_intro () acts_listen). by vm_compute.
  - by vm_compute.
Defined.

(** X6 on the run [acts_listen]. *)
Lemma X6_witness :
  ∃ w' c', notify "jobs" (Some job_42) (world (after acts_listen ())) = Ret () w' ∧
           heap w' !! 0 = Some c' ∧ length (Chan.buf c') = 1.
Proof.
  destruct (X6_pending_after_notification () (after acts_listen ())) as [Hn _].
  { apply (reachable_intro () acts_listen). by vm_compute. }
  apply (Hn "jobs" 0 (Some job_42)). by vm_compute.
Defined.

(** X7 on the run [acts_job]: the consumer of "jobs" receives [job_42]. *)
Lemma X7_witness :
  ∃ sys1 c1 sys2,
    exec (act_loop sel_pingTimer) (after acts_job ()) = Some sys1 ∧
    heap (world sys1) !! 0 = Some c1 ∧
    Chan.recv c1 = Chan.Received (Some job_42) (Chan.mk 1 [] false) ∧
    exec (act_consume 0) sys1 = Some sys2 ∧
    heap (world sys2) !! 0 = Some (Chan.mk 1 [] false) ∧
    exec (act_consume 0) sys2 = None.
Proof.
  apply (X7_deliver_then_receive () (after acts_job ()) sel_pingTimer job_42 0
           (Chan.mk 1 [] false)).
  - apply (reachable_intro () acts_job). by vm_compute.
  - by vm_compute.
  - by vm_compute.
  - by vm_compute.
  - by vm_compute.
Defined.

(** X8 on the run [acts_listen] and the topic "jobs". *)
Lemma X8_witness :
  ∃ w' c',
    Unlisten "jobs" (world (after acts_listen ())) = Ret (Unlisten_ret None) w' ∧
    heap w' !! 0 = Some c' ∧
    Chan.recv c' = Chan.RecvClosed ∧
    (∀ n, notify "jobs" n w' = Ret () w').
Proof.
  apply (X8_Unlisten_keeps_pending "jobs" (world (after acts_listen ())) 0
           (Chan.mk 1 [] false) ()); by vm_compute.
Defined.

(** X9 on the run [acts_listen]: a notification for "mail" (not
    registered) and the channel of "jobs". *)
Lemma X9_witness :
  ∃ w', notify "mail" None (world (after acts_listen ())) = Ret () w' ∧
        nc w' = nc (world (after acts_listen ())) ∧
        listener w' = listener (world (after acts_listen ())) ∧
        ∀ T' ch', T' ≠ "mail" →
                  channels (nc (world (after acts_listen ()))) !! T' = Some ch' →
                  heap w' !! ch' = heap (world (after acts_listen ())) !! ch'.
Proof.
  apply (X9_topics_isolated () (after acts_listen ()) "mail" None).
  apply (reachable_intro () acts_listen). by vm_compute.
Defined.

(** X10 on the run [acts_interval]: an interval of zero arms the timer. *)
Lemma X10_witness :
  ∃ sys1 sys2 sys3,
    exec (act_go 0) (after acts_interval ()) = Some sys1 ∧
    goroutines sys1 !! 0 = Some (Returned SetPingInterval_ret) ∧
    exec (act_loop sel_newPingInterval) sys1 = Some sys2 ∧
    pingInterval (mainLoop sys2) = Some 0%Z ∧
    Chan.buf (newPingIntervalChannel (nc (world sys2))) = [] ∧
    exec (act_loop sel_pingTimer) sys2 = Some sys3 ∧
    armed (pingTimer (mainLoop sys3)) = true ∧
    ∀ acts sys', run acts sys2 = Some sys' →
                 is_Some (pingInterval (mainLoop sys')).
Proof.
  apply (X10_interval_reaches_the_loop () (after acts_interval ()) 0 0%Z
           sel_pingTimer).
  - apply (reachable_intro () acts_interval). by vm_compute.
  - by vm_compute.
  - by vm_compute.
  - by vm_compute.
Defined.

(** X11 on the state the run [acts_listen] ends in. *)
Lemma X11_witness :
  ∃ w', shutdown (world (after acts_listen ())) = Ret () w' ∧
        closeWaitGroup (nc w') = 0%Z ∧
        heap w' !! 0 = Some (Chan.mk 1 [] true).
Proof.
  destruct (X11_shutdown_closes_every_channel (world (after acts_listen ())))
    as (w' & Hs & Hnc & _ & Hreg & _).
  - by vm_compute.
  - apply wf_after. by vm_compute.
  - by vm_compute.
  - exists w'. split; [done|]. split; [by rewrite Hnc|].
    destruct (Hreg "jobs" 0 ltac:(by vm_compute)) as (c & Hc & Hc' & _).
    vm_compute in Hc. injection Hc as <-. exact Hc'.
Defined.
